(** * generate_matrices.py: seeded random matrices written as raw int32 files

    The script creates the output directory, seeds one numpy [Generator]
    and, for every size and for each of the labels A and B, draws a
    size x size block of integers in [0, 10), dumps it with [tofile] and
    prints the path.  The development below embeds the script in a small
    state-and-exception monad over a model of the file system and of the
    console, with numpy's bit generator taken as an interface. *)

From stdpp Require Import gmap strings list fin_maps pretty.
From Stdlib Require Import ZArith Lia Ascii.

Local Open Scope Z_scope.

(* ===================================================================== *)
(** ** Exceptions *)
(* ===================================================================== *)

(** The [OSError] subclasses (by errno) that the file-system calls of the
    script and its console can raise. *)
Inductive errno :=
  | EEXIST   (* FileExistsError *)
  | ENOENT   (* FileNotFoundError *)
  | ENOTDIR  (* NotADirectoryError *)
  | EISDIR   (* IsADirectoryError *)
  | EACCES   (* PermissionError *)
  | ENOSPC   (* OSError: no space left on device *)
  | EFBIG    (* OSError: file too large *)
  | EROFS    (* OSError: read-only file system *)
  | EPIPE    (* BrokenPipeError *)
  | EIO.     (* OSError: input/output error *)

(** What the calls of the script raise.  [ShortWriteError requested
    written] is the [OSError] without an error number that [tofile] raises
    when [fwrite] reports fewer elements than it was given ("%ld requested
    and %ld written"). *)
Inductive exn :=
  | OSError (e : errno)
  | ShortWriteError (requested written : Z)
  | ValueError
  | MemoryError.

Inductive res (A : Type) :=
  | Ok (a : A)
  | Raise (e : exn).
Arguments Ok {A} a.
Arguments Raise {A} e.

Global Instance errno_eq_dec : EqDecision errno.
Proof. solve_decision. Defined.

Global Instance exn_eq_dec : EqDecision exn.
Proof. solve_decision. Defined.

(* ===================================================================== *)
(** ** dtype=np.int32 and its byte image *)
(* ===================================================================== *)

Module Int32.

Definition modulus : Z := 2 ^ 32.
Definition min_signed : Z := - 2 ^ 31.
Definition max_signed : Z := 2 ^ 31 - 1.

(** A C cast to [uint32_t]. *)
Definition to_unsigned (x : Z) : Z := x mod modulus.

(** A C cast of a [uint32_t] to [int32_t] (two's complement). *)
Definition to_signed (u : Z) : Z :=
  let u := u mod modulus in
  if u <? 2 ^ 31 then u else u - modulus.

Definition in_range (x : Z) : Prop := min_signed <= x <= max_signed.

(** Byte order of the platform's native [int32]. *)
Inductive byteorder := LittleEndian | BigEndian.

(** Byte number [k] (0 = least significant) of a word. *)
Definition byte_at (k : Z) (u : Z) : Z := Z.land (Z.shiftr u (8 * k)) 255.

Definition le_bytes (u : Z) : list Z :=
  [byte_at 0 u; byte_at 1 u; byte_at 2 u; byte_at 3 u].

Definition of_le_bytes (bs : list Z) : Z :=
  match bs with
  | [b0; b1; b2; b3] =>
      Z.lor b0 (Z.lor (Z.shiftl b1 8) (Z.lor (Z.shiftl b2 16) (Z.shiftl b3 24)))
  | _ => 0
  end.

(** The four bytes of one array element in memory. *)
Definition to_bytes (o : byteorder) (x : Z) : list Z :=
  match o with
  | LittleEndian => le_bytes (to_unsigned x)
  | BigEndian => rev (le_bytes (to_unsigned x))
  end.

(** [numpy.frombuffer(b, dtype=np.int32)] on four bytes. *)
Definition of_bytes (o : byteorder) (bs : list Z) : Z :=
  match o with
  | LittleEndian => to_signed (of_le_bytes bs)
  | BigEndian => to_signed (of_le_bytes (rev bs))
  end.

(** The raw image of a buffer of elements: no header, no separators. *)
Definition encode (o : byteorder) (xs : list Z) : list Z :=
  flat_map (to_bytes o) xs.

(** Reading a byte string back, four bytes at a time; trailing bytes that
    do not make a full element are dropped. *)
Fixpoint decode (o : byteorder) (bs : list Z) : list Z :=
  match bs with
  | b0 :: b1 :: b2 :: b3 :: rest => of_bytes o [b0; b1; b2; b3] :: decode o rest
  | _ => []
  end.

Definition is_byte (b : Z) : Prop := 0 <= b < 256.

End Int32.

(* ===================================================================== *)
(** ** numpy: the seeded generator and [Generator.integers] *)
(* ===================================================================== *)

Module Numpy.

(** What the script needs of numpy's bit generator (PCG64 behind
    [default_rng]): a state made from the seed, and the routine that
    [Generator.integers] calls once per element of an array of a 32 bit
    dtype.  [bounded_uint32 rng g] is a draw from the closed range
    [0, rng] together with the advanced state; the state is the only thing
    a draw depends on. *)
Class BitGenerator (G : Type) := {
  seed_state : Z -> G;
  bounded_uint32 : Z -> G -> Z * G;
  bounded_uint32_range rng g :
    0 <= rng < Int32.modulus -> 0 <= (bounded_uint32 rng g).1 <= rng
}.

(** A C-contiguous two-dimensional array of [int32]: its shape and its
    buffer, rows one after the other. *)
Record ndarray := { shape : Z * Z; data : list Z }.


(** [a.tobytes()]: the buffer in C order, native byte order. *)
Definition tobytes (o : Int32.byteorder) (a : ndarray) : list Z :=
  Int32.encode o (data a).

(** The bytes of one element of the dtype. *)
Definition itemsize : Z := 4.

(** The largest [npy_intp] of a 64 bit build. *)
Definition NPY_MAX_INTP : Z := 2 ^ 63 - 1.

(** What [np.empty((rows, cols), np.int32)] raises where [avail] bytes can
    be allocated: a [ValueError] for a negative dimension, for a dimension
    beyond [npy_intp] and for an array whose size in bytes is, and a
    [MemoryError] when the bytes are not to be had. *)
Definition empty_error (avail : Z) (size : Z * Z) : option exn :=
  let '(rows, cols) := size in
  if (rows <? 0) || (cols <? 0) then Some ValueError
  else if (NPY_MAX_INTP <? rows) || (NPY_MAX_INTP <? cols) then Some ValueError
  else if (rows =? 0) || (cols =? 0) then None
  else if NPY_MAX_INTP <? rows * cols * itemsize then Some ValueError
  else if avail <? rows * cols * itemsize then Some MemoryError
  else None.

Section Generator.
Context {G : Type} `{!BitGenerator G}.

(** [np.random.default_rng(seed)] for an integer seed; a negative seed is
    refused. *)
Definition default_rng (seed : Z) : res G :=
  if seed <? 0 then Raise ValueError else Ok (seed_state seed).

(** The fill loop: [cnt] draws, stored in the order they are made. *)
Fixpoint fill (cnt : nat) (rng : Z) (g : G) : list Z * G :=
  match cnt with
  | O => ([], g)
  | S cnt' =>
      let '(x, g1) := bounded_uint32 rng g in
      let '(xs, g2) := fill cnt' rng g1 in
      (x :: xs, g2)
  end.

(** [rng.integers(low=low, high=high, size=(rows, cols), dtype=np.int32)]
    with scalar bounds and the default [endpoint=False], on a machine where
    [avail] bytes can be allocated.  An empty shape gives an empty array
    before anything else is looked at.  Otherwise the bounds are checked
    against the dtype, an empty range is refused, the array is allocated
    and its buffer is filled in C order with [low] added to every draw in
    [uint32] arithmetic. *)
Definition integers (avail : Z) (low high : Z) (size : Z * Z) (g : G)
    : res (ndarray * G) :=
  let '(rows, cols) := size in
  if rows * cols =? 0 then
    match empty_error avail size with
    | Some e => Raise e
    | None => Ok ({| shape := size; data := [] |}, g)
    end
  else
    let high := high - 1 in
    if low <? Int32.min_signed then Raise ValueError
    else if Int32.max_signed <? high then Raise ValueError
    else if high <? low then Raise ValueError
    else
      let rng := high - low in
      let off := Int32.to_unsigned low in
      match empty_error avail size with
      | Some e => Raise e
      | None =>
          let '(out, g') := fill (Z.to_nat (rows * cols)) rng g in
          Ok ({| shape := size;
                 data := (fun x => Int32.to_signed (Int32.to_unsigned (off + x))) <$> out |},
              g')
      end.

End Generator.

End Numpy.

(* ===================================================================== *)
(** ** numpy's default bit generator: SeedSequence, PCG64, bounded draws *)
(* ===================================================================== *)

(** The generator behind [default_rng]: the seed is hashed by
    [SeedSequence] into four 64 bit words that initialise a PCG64 (XSL-RR
    128/64) state; 32 bit outputs are the two halves of a 64 bit output,
    low half first; a bounded draw is Lemire's multiply-and-reject on 32 bit
    outputs.  It is the instance of [BitGenerator] at which the results
    below are evaluated. *)
Module PCG64.
Import Numpy.

(** Casts to [uint32_t], [uint64_t] and the 128 bit type of the state. *)
Definition two32 : Z := Eval cbv in 2 ^ 32.
Definition two64 : Z := Eval cbv in 2 ^ 64.
Definition two128 : Z := Eval cbv in 2 ^ 128.
Definition u32 (x : Z) : Z := x mod two32.
Definition u64 (x : Z) : Z := x mod two64.
Definition u128 (x : Z) : Z := x mod two128.

(** *** SeedSequence *)

Definition XSHIFT : Z := 16.
Definition INIT_A : Z := 0x43b0d7e5.
Definition MULT_A : Z := 0x931e8875.
Definition INIT_B : Z := 0x8b51f9dd.
Definition MULT_B : Z := 0x58f38ded.
Definition MIX_MULT_L : Z := 0xca01f9dd.
Definition MIX_MULT_R : Z := 0x4973f715.
Definition POOL_SIZE : nat := 4.

(** [hashmix]: the hashed value and the updated hash constant. *)
Definition hashmix (value hash_const : Z) : Z * Z :=
  let value := Z.lxor value hash_const in
  let hash_const := u32 (hash_const * MULT_A) in
  let value := u32 (value * hash_const) in
  (Z.lxor value (Z.shiftr value XSHIFT), hash_const).

Definition mix (x y : Z) : Z :=
  let result := u32 (MIX_MULT_L * x - MIX_MULT_R * y) in
  Z.lxor result (Z.shiftr result XSHIFT).

(** The seed as 32 bit words, least significant first; zero is one word. *)
Fixpoint int_to_words (fuel : nat) (n : Z) : list Z :=
  match fuel with
  | O => []
  | S fuel' => if n =? 0 then [] else u32 n :: int_to_words fuel' (n / two32)
  end.

Definition entropy_words (seed : Z) : list Z :=
  match int_to_words (Z.to_nat (Z.log2 seed + 1)) seed with
  | [] => [0]
  | ws => ws
  end.

(** The pool is first filled from the entropy (zero where it runs out). *)
Fixpoint fill_pool (k i : nat) (entropy : list Z) (hash_const : Z) : list Z * Z :=
  match k with
  | O => ([], hash_const)
  | S k' =>
      let '(v, hash_const) := hashmix (nth i entropy 0) hash_const in
      let '(rest, hash_const) := fill_pool k' (S i) entropy hash_const in
      (v :: rest, hash_const)
  end.

(** Then every word is mixed into every other word. *)
Definition mix_pool (pool : list Z) (hash_const : Z) : list Z * Z :=
  fold_left
    (fun '(pool, hc) i_src =>
       fold_left
         (fun '(pool, hc) i_dst =>
            if Nat.eqb i_src i_dst then (pool, hc)
            else
              let '(h, hc) := hashmix (nth i_src pool 0) hc in
              (<[i_dst := mix (nth i_dst pool 0) h]> pool, hc))
         (seq 0 POOL_SIZE) (pool, hc))
    (seq 0 POOL_SIZE) (pool, hash_const).

(** Then the entropy words beyond the pool size are mixed into every word. *)
Definition mix_rest (entropy pool : list Z) (hash_const : Z) : list Z * Z :=
  fold_left
    (fun '(pool, hc) e =>
       fold_left
         (fun '(pool, hc) i_dst =>
            let '(h, hc) := hashmix e hc in
            (<[i_dst := mix (nth i_dst pool 0) h]> pool, hc))
         (seq 0 POOL_SIZE) (pool, hc))
    (skipn POOL_SIZE entropy) (pool, hash_const).

Definition seed_pool (seed : Z) : list Z :=
  let entropy := entropy_words seed in
  let '(pool, hc) := fill_pool POOL_SIZE 0 entropy INIT_A in
  let '(pool, hc) := mix_pool pool hc in
  (mix_rest entropy pool hc).1.

(** [generate_state]: [n] 32 bit words cycled out of the pool. *)
Fixpoint generate_state (n i : nat) (pool : list Z) (hash_const : Z) : list Z :=
  match n with
  | O => []
  | S n' =>
      let data_val := Z.lxor (nth (i mod POOL_SIZE) pool 0) hash_const in
      let hash_const := u32 (hash_const * MULT_B) in
      let data_val := u32 (data_val * hash_const) in
      Z.lxor data_val (Z.shiftr data_val XSHIFT)
        :: generate_state n' (S i) pool hash_const
  end.

(** Four 64 bit words, each made of two consecutive 32 bit words, the
    first being the low half. *)
Definition generate_state64 (seed : Z) : list Z :=
  let s := generate_state 8 0 (seed_pool seed) INIT_B in
  (fun k => nth (2 * k) s 0 + nth (2 * k + 1) s 0 * two32) <$> seq 0 4.

(** *** PCG64 *)

Record state := {
  pcg_state : Z;        (* 128 bit LCG state *)
  pcg_inc : Z;          (* 128 bit increment *)
  has_uint32 : bool;    (* a buffered high half is waiting *)
  uinteger : Z          (* the buffered high half *)
}.

Definition PCG_DEFAULT_MULTIPLIER_128 : Z :=
  Eval cbv in 2549297995355413924 * 2 ^ 64 + 4865540595714422341.

Definition step (s inc : Z) : Z := u128 (s * PCG_DEFAULT_MULTIPLIER_128 + inc).

Definition srandom (initstate initseq : Z) : state :=
  let inc := u128 (Z.lor (Z.shiftl initseq 1) 1) in
  let s := step 0 inc in
  let s := u128 (s + initstate) in
  let s := step s inc in
  {| pcg_state := s; pcg_inc := inc; has_uint32 := false; uinteger := 0 |}.

Definition seed (n : Z) : state :=
  let w := generate_state64 n in
  srandom (nth 0 w 0 * two64 + nth 1 w 0) (nth 2 w 0 * two64 + nth 3 w 0).

Definition rotr64 (value rot : Z) : Z :=
  Z.lor (Z.shiftr value rot) (u64 (Z.shiftl value (Z.land (- rot) 63))).

Definition output_xsl_rr (s : Z) : Z :=
  rotr64 (Z.lxor (u64 (Z.shiftr s 64)) (u64 s)) (Z.shiftr s 122).

Definition next_uint64 (g : state) : Z * state :=
  let s := step (pcg_state g) (pcg_inc g) in
  (output_xsl_rr s,
   {| pcg_state := s; pcg_inc := pcg_inc g;
      has_uint32 := has_uint32 g; uinteger := uinteger g |}).

Definition next_uint32 (g : state) : Z * state :=
  if has_uint32 g then
    (u32 (uinteger g),
     {| pcg_state := pcg_state g; pcg_inc := pcg_inc g;
        has_uint32 := false; uinteger := uinteger g |})
  else
    let '(next, g') := next_uint64 g in
    (u32 next,
     {| pcg_state := pcg_state g'; pcg_inc := pcg_inc g';
        has_uint32 := true; uinteger := u32 (Z.shiftr next 32) |}).

(** *** Bounded draws *)

(** The rejection loop of Lemire's method, [while (leftover < threshold)].
    A draw is rejected with probability below [rng / 2^32]; the loop here
    gives up after [fuel] rejections in a row and keeps the last product. *)
Fixpoint reject (fuel : nat) (rng_excl threshold m : Z) (g : state) : Z * state :=
  match fuel with
  | O => (m, g)
  | S fuel' =>
      if Z.land m 0xFFFFFFFF <? threshold then
        let '(x, g') := next_uint32 g in
        reject fuel' rng_excl threshold (x * rng_excl) g'
      else (m, g)
  end.

Definition MAX_REJECTIONS : nat := 64.

Definition bounded_lemire_uint32 (rng : Z) (g : state) : Z * state :=
  let rng_excl := rng + 1 in
  let '(x, g) := next_uint32 g in
  let m := x * rng_excl in
  let '(m, g) :=
    if Z.land m 0xFFFFFFFF <? rng_excl
    then reject MAX_REJECTIONS rng_excl ((0xFFFFFFFF - rng) mod rng_excl) m g
    else (m, g) in
  (Z.shiftr m 32, g).

(** One element of the fill loop for a 32 bit dtype, without the offset:
    a constant for an empty range, a raw output for the full range, and
    Lemire's method otherwise. *)
Definition bounded (rng : Z) (g : state) : Z * state :=
  if rng =? 0 then (0, g)
  else if rng =? 0xFFFFFFFF then next_uint32 g
  else bounded_lemire_uint32 rng g.

(** *** A bounded draw as a function of the raw outputs *)

(** The 32 bit outputs that Lemire's method keeps for the range [0, rng]:
    the low half of the product is not below the threshold. *)
Definition kept (rng x : Z) : bool :=
  negb (Z.land (x * (rng + 1)) 0xFFFFFFFF <? (0xFFFFFFFF - rng) mod (rng + 1)).

(** The draw that a kept output gives: the high half of the product. *)
Definition value_of (rng x : Z) : Z := Z.shiftr (x * (rng + 1)) 32.

(** The first kept output among [x] and the next [fuel] outputs of [g]. *)
Fixpoint first_kept (fuel : nat) (rng x : Z) (g : state) : option (Z * state) :=
  if kept rng x then Some (x, g)
  else match fuel with
       | O => None
       | S fuel' => let '(x', g') := next_uint32 g in first_kept fuel' rng x' g'
       end.

Lemma next_uint32_range g : 0 <= (next_uint32 g).1 < 2 ^ 32.
Proof.
  unfold next_uint32. destruct (has_uint32 g); simpl;
    apply (Z.mod_pos_bound _ two32); reflexivity.
Qed.

Lemma reject_range fuel rng_excl threshold m g :
  0 < rng_excl ->
  0 <= m < 2 ^ 32 * rng_excl ->
  0 <= (reject fuel rng_excl threshold m g).1 < 2 ^ 32 * rng_excl.
Proof.
  intros Hr. revert m g. induction fuel as [|fuel IH]; intros m g Hm; [done|].
  simpl. destruct (Z.land m 4294967295 <? threshold); [|done].
  pose proof (next_uint32_range g) as Hx.
  destruct (next_uint32 g) as [x g']. simpl in Hx. apply IH. nia.
Qed.

Lemma bounded_range rng g :
  0 <= rng < Int32.modulus -> 0 <= (bounded rng g).1 <= rng.
Proof.
  unfold Int32.modulus, bounded. intros Hrng.
  destruct (Z.eqb_spec rng 0) as [->|Hnz]; [done|].
  destruct (Z.eqb_spec rng 4294967295) as [->|Hnf].
  { pose proof (next_uint32_range g). lia. }
  unfold bounded_lemire_uint32.
  pose proof (next_uint32_range g) as Hx.
  destruct (next_uint32 g) as [x g1]. simpl in Hx.
  assert (Hm : 0 <= x * (rng + 1) < 2 ^ 32 * (rng + 1)) by nia.
  assert (Hres : forall m (g2 : state), 0 <= m < 2 ^ 32 * (rng + 1) ->
            0 <= Z.shiftr m 32 <= rng).
  { intros m _ Hm'. rewrite Z.shiftr_div_pow2 by lia. split.
    - apply Z.div_pos; lia.
    - apply Z.lt_succ_r. apply Z.div_lt_upper_bound; lia. }
  destruct (Z.land (x * (rng + 1)) 4294967295 <? rng + 1).
  - pose proof (reject_range MAX_REJECTIONS (rng + 1)
                  ((4294967295 - rng) mod (rng + 1)) (x * (rng + 1)) g1
                  ltac:(lia) Hm) as Hrej.
    destruct (reject _ _ _ _ g1) as [m g2]. simpl in *. by apply (Hres m g2).
  - simpl. by apply (Hres _ g1).
Qed.

Global Instance pcg64 : BitGenerator state := {|
  seed_state := seed;
  bounded_uint32 := bounded;
  bounded_uint32_range := bounded_range
|}.

End PCG64.

(* ===================================================================== *)
(** ** The operating system: paths, directories, files, the console *)
(* ===================================================================== *)

Module OS.

(** *** posixpath *)

Definition is_sep (c : ascii) : bool := Ascii.eqb c "/".

Definition startswith_sep (s : string) : bool :=
  match s with
  | String c _ => is_sep c
  | EmptyString => false
  end.

Fixpoint endswith_sep (s : string) : bool :=
  match s with
  | EmptyString => false
  | String c EmptyString => is_sep c
  | String _ s' => endswith_sep s'
  end.

(** [os.path.join(a, b)]: an absolute [b] replaces [a]; otherwise [b] is
    appended, after a separator unless [a] is empty or ends with one. *)
Definition path_join (a b : string) : string :=
  if startswith_sep b then b
  else if String.eqb a "" || endswith_sep a then a +:+ b
  else a +:+ "/" +:+ b.

(** The pieces of a path between separators. *)
Fixpoint split_sep (s : string) : list string :=
  match s with
  | EmptyString => [EmptyString]
  | String c s' =>
      if is_sep c then EmptyString :: split_sep s'
      else match split_sep s' with
           | [] => [String c EmptyString]
           | x :: xs => String c x :: xs
           end
  end.

Definition is_name (c : string) : bool :=
  negb (String.eqb c "") && negb (String.eqb c ".").

(** Path resolution as the kernel does it for a path without [..] and
    without symbolic links: empty pieces and [.] are skipped, and an
    absolute path starts at the root, written as the component [/].  A
    relative path starts at the working directory, the empty list.  The
    empty string names nothing. *)
Definition resolve (path : string) : option (list string) :=
  if String.eqb path "" then None
  else Some ((if startswith_sep path then ["/"] else []) ++
             List.filter is_name (split_sep path)).

(** The directory an entry lives in. *)
Definition parent (p : list string) : list string := removelast p.

(** The path as written ends in the component [.]: it names the entry
    before that component, looked up as a directory. *)
Definition ends_in_dot (path : string) : bool :=
  match last (List.filter (fun c => negb (String.eqb c "")) (split_sep path)) with
  | Some c => String.eqb c "."
  | None => false
  end.

(** *** The file system *)

Inductive node :=
  | Dir
  | File (content : list Z).

(** Why the environment refuses to create or fill an entry: the call that
    opens or creates it fails, or the device takes the first [written]
    bytes of the file and no more (a full disk, a quota, an I/O error). *)
Inductive fault :=
  | OpenFault (e : errno)
  | WriteFault (e : errno) (written : nat).

Definition fault_errno (f : fault) : errno :=
  match f with
  | OpenFault e => e
  | WriteFault e _ => e
  end.

(** What the processes do, in the order they do it: a directory made; a
    byte string handed to a file by a write that returned (what the device
    stored of it is the content of the file); a write that raised after
    the bytes given had reached the file; a line handed to [print]
    (whether the console took it or not). *)
Inductive event :=
  | EvMkdir (p : list string)
  | EvWrite (path : string) (content : list Z)
  | EvShortWrite (path : string) (content : list Z)
  | EvPrint (line : string).

(** The world a run acts on.  The file system: its entries by resolved
    path, the entries the environment refuses to create or fill, and the
    size that the C library gives to the buffer of a stream on it (the
    block size [st_blksize] of the file).  The memory: the bytes an
    allocation can get.  The console: given the lines that the process has
    handed to [print] so far, the error, if any, with which the last
    [print] fails ([console]: Python's buffering and the device behind
    [sys.stdout] decide when a failure shows), and the error, if any, with
    which the flush at the exit of the interpreter fails ([at_exit]).  The
    lines of the running process ([pending]) and the effects of all
    processes so far ([trace]). *)
Record World := {
  nodes : gmap (list string) node;
  faults : gmap (list string) fault;
  bufsize : Z;
  memory : Z;
  console : list string -> option errno;
  at_exit : list string -> option errno;
  pending : list string;
  trace : list event
}.

Definition is_root (p : list string) : bool :=
  match p with
  | [] => true
  | [c] => String.eqb c "/"
  | _ => false
  end.

(** The working directory and the root always exist. *)
Definition stat (w : World) (p : list string) : option node :=
  if is_root p then Some Dir else nodes w !! p.

Definition path_exists (w : World) (p : list string) : bool :=
  match stat w p with Some _ => true | None => false end.

Definition path_isdir (w : World) (p : list string) : bool :=
  match stat w p with Some Dir => true | _ => false end.

Definition set_node (p : list string) (n : node) (w : World) : World :=
  {| nodes := <[p := n]> (nodes w); faults := faults w;
     bufsize := bufsize w; memory := memory w;
     console := console w; at_exit := at_exit w;
     pending := pending w; trace := trace w |}.

Definition log (ev : event) (w : World) : World :=
  {| nodes := nodes w; faults := faults w;
     bufsize := bufsize w; memory := memory w;
     console := console w; at_exit := at_exit w;
     pending := pending w; trace := trace w ++ [ev] |}.

(** The lines of the process: none when it starts, one more with every
    [print]. *)
Definition set_pending (ls : list string) (w : World) : World :=
  {| nodes := nodes w; faults := faults w;
     bufsize := bufsize w; memory := memory w;
     console := console w; at_exit := at_exit w;
     pending := ls; trace := trace w |}.

(** The lines that the processes have handed to [print], oldest first. *)
Definition stdout (w : World) : list string :=
  omap (fun ev => match ev with EvPrint line => Some line | _ => None end) (trace w).

(** The byte strings that writes which returned have handed to files,
    oldest first. *)
Definition writes (evs : list event) : list (string * list Z) :=
  omap (fun ev => match ev with EvWrite p c => Some (p, c) | _ => None end) evs.

(** [open(path).read()] of a regular file. *)
Definition read_file (w : World) (path : string) : option (list Z) :=
  match resolve path with
  | Some p => match stat w p with Some (File c) => Some c | _ => None end
  | None => None
  end.

(** *** Computations: a state over the world, with exceptions.  An
    exception leaves the world as it is at the raise: nothing is undone. *)

Definition M (A : Type) : Type := World -> res A * World.

Definition ret {A} (a : A) : M A := fun w => (Ok a, w).

Definition bind {A B} (m : M A) (k : A -> M B) : M B :=
  fun w => match m w with
           | (Ok a, w') => k a w'
           | (Raise e, w') => (Raise e, w')
           end.

Definition raise {A} (e : exn) : M A := fun w => (Raise e, w).

(** [try: m  except exn as e: h e]. *)
Definition catch {A} (m : M A) (h : exn -> M A) : M A :=
  fun w => match m w with
           | (Ok a, w') => (Ok a, w')
           | (Raise e, w') => h e w'
           end.

(** A pure computation that may raise. *)
Definition lift {A} (r : res A) : M A := fun w => (r, w).

Definition gets {A} (f : World -> A) : M A := fun w => (Ok (f w), w).

Definition modify (f : World -> World) : M unit := fun w => (Ok tt, f w).

End OS.

Global Instance M_ret : MRet OS.M := @OS.ret.
Global Instance M_bind : MBind OS.M := fun A B k m => OS.bind m k.

Module Syscalls.
Import OS.

(** The error for an entry whose directory is not there. *)
Definition check_parent (w : World) (p : list string) : option errno :=
  match stat w (parent p) with
  | Some Dir => None
  | Some (File _) => Some ENOTDIR
  | None => Some ENOENT
  end.

(** [os.mkdir] on a resolved path.  [dot] says that the path as written
    ends in the component [.]: where the entry before it is a regular file
    the kernel does not get as far as that component
    ([NotADirectoryError]). *)
Definition mkdir (p : list string) (dot : bool) : M unit :=
  fun w =>
    if path_exists w p
    then (Raise (OSError (if dot && negb (path_isdir w p) then ENOTDIR else EEXIST)), w)
    else match check_parent w p with
         | Some e => (Raise (OSError e), w)
         | None =>
             match faults w !! p with
             | Some f => (Raise (OSError (fault_errno f)), w)
             | None => (Ok tt, log (EvMkdir p) (set_node p Dir w))
             end
         end.

(** The last step of [makedirs]: [mkdir], where an [OSError] is raised
    again unless [exist_ok] is set and the path is a directory. *)
Definition mkdir_exist_ok (p : list string) (exist_ok dot : bool) : M unit :=
  catch (mkdir p dot)
    (fun e =>
       match e with
       | OSError _ =>
           d ← gets (fun w => path_isdir w p);
           if negb exist_ok || negb d then raise e else mret tt
       | _ => raise e
       end).

(** [os.makedirs] on a resolved path given last component first.  As in
    the library: when the path has a head that does not exist the head is
    made first, a [FileExistsError] from that being passed over; then the
    directory itself is made. *)
Fixpoint makedirs_rev (rp : list string) (exist_ok dot : bool) : M unit :=
  match rp with
  | [] => mkdir_exist_ok [] exist_ok dot
  | _ :: rhead =>
      head_exists ← gets (fun w => path_exists w (rev rhead));
      (if negb (bool_decide (rhead = [])) && negb head_exists
       then catch (makedirs_rev rhead exist_ok false)
              (fun e => if bool_decide (e = OSError EEXIST) then mret tt else raise e)
       else mret tt);;
      mkdir_exist_ok (rev rp) exist_ok dot
  end.

(** [os.makedirs(name, exist_ok=exist_ok)]. *)
Definition makedirs (name : string) (exist_ok : bool) : M unit :=
  match resolve name with
  | None => raise (OSError ENOENT)
  | Some p => makedirs_rev (rev p) exist_ok (ends_in_dot name)
  end.

(** How many of [n] bytes [fwrite] hands to the device at once, on a new
    stream with a buffer of [bs] bytes: the whole blocks.  The rest waits
    in the buffer until the stream is closed.  A buffer of less than 128
    bytes is passed by. *)
Definition direct (bs n : Z) : Z :=
  if bs <? 128 then n else n - n mod bs.

(** [open(path, "wb")], one [fwrite] of [content], whose elements have
    [itemsize] bytes, to a C stream on the file, and [fclose], as [tofile]
    does them.  The path must not be a directory and must lie in one; the
    file is created or cut to length zero.  Where the device takes only
    the first [cap] bytes, two things can happen.  If the whole blocks,
    which [fwrite] hands over at once, do not all get through, [fwrite]
    reports the elements that did and the call raises.  If they do, the
    rest is lost when the buffer is flushed in [fclose], whose result
    nobody looks at: the call returns as if all was well. *)
Definition write_file (path : string) (itemsize : Z) (content : list Z) : M unit :=
  fun w =>
    match resolve path with
    | None => (Raise (OSError ENOENT), w)
    | Some p =>
        if path_isdir w p then (Raise (OSError EISDIR), w)
        else match check_parent w p with
             | Some e => (Raise (OSError e), w)
             | None =>
                 match faults w !! p with
                 | Some (OpenFault e) => (Raise (OSError e), w)
                 | Some (WriteFault _ cap) =>
                     let n := Z.of_nat (length content) in
                     if Z.of_nat cap <? direct (bufsize w) n
                     then (Raise (ShortWriteError (n / itemsize) (Z.of_nat cap / itemsize)),
                           log (EvShortWrite path (take cap content))
                             (set_node p (File (take cap content)) w))
                     else (Ok tt,
                           log (EvWrite path content)
                             (set_node p (File (take cap content)) w))
                 | None =>
                     (Ok tt, log (EvWrite path content) (set_node p (File content) w))
                 end
             end
    end.

(** [print(line)]: the line goes to [sys.stdout]; the call raises when the
    console fails at this point. *)
Definition print (line : string) : M unit :=
  fun w =>
    let w' := log (EvPrint line) (set_pending (pending w ++ [line]) w) in
    match console w' (pending w') with
    | Some e => (Raise (OSError e), w')
    | None => (Ok tt, w')
    end.

(** A new interpreter: nothing has been printed yet. *)
Definition startup : M unit := modify (set_pending []).

End Syscalls.

(* ===================================================================== *)
(** ** The script *)
(* ===================================================================== *)

Module Script.
Import OS Syscalls Numpy.

(** [for x in xs: s = body x s], with the loop state [s] threaded. *)
Fixpoint for_each {A S : Type} (xs : list A) (body : A -> S -> M S) (s : S) : M S :=
  match xs with
  | [] => mret s
  | x :: xs' => s' ← body x s; for_each xs' body s'
  end.

Section Program.
Context {G : Type} `{!BitGenerator G}.

(** The byte order of the machine the script runs on. *)
Variable native : Int32.byteorder.

(** [matrix.tofile(filepath)]: the raw bytes of the array, nothing else. *)
Definition tofile (matrix : ndarray) (filepath : string) : M unit :=
  write_file filepath itemsize (tobytes native matrix).

(** [f'{matrix_label}_{size}.bin'] *)
Definition filename_of (matrix_label : string) (size : Z) : string :=
  matrix_label +:+ "_" +:+ pretty size +:+ ".bin".

Definition filepath_of (output_dir matrix_label : string) (size : Z) : string :=
  path_join output_dir (filename_of matrix_label size).

(** The body of the inner loop.  The generator is the loop state: the
    script's [rng] is one object that every call of [integers] advances. *)
Definition iteration (output_dir : string) (size : Z) (matrix_label : string)
    (rng : G) : M G :=
  avail ← gets memory;
  '(matrix, rng) ← lift (integers avail 0 10 (size, size) rng);
  let filename := filename_of matrix_label size in
  let filepath := path_join output_dir filename in
  tofile matrix filepath;;
  print ("Saved " +:+ filepath);;
  mret rng.

(** The script with its constants as arguments (the labels too), run by a
    new interpreter. *)
Definition generate (labels : list string) (sizes : list Z) (output_dir : string)
    (seed : Z) : M unit :=
  startup;;
  makedirs output_dir true;;
  rng ← lift (default_rng seed);
  for_each sizes
    (fun size => for_each labels (fun matrix_label => iteration output_dir size matrix_label))
    rng;;
  mret tt.

End Program.

Definition MATRIX_SIZES : list Z := [64; 128; 256; 512; 1024].
Definition OUTPUT_DIR : string := "matrices".
Definition SEED : Z := 42.
Definition LABELS : list string := ["A"; "B"].

(** The script as it stands. *)
Definition main {G : Type} `{!BitGenerator G} (native : Int32.byteorder) : M unit :=
  generate native LABELS MATRIX_SIZES OUTPUT_DIR SEED.

(** The exit status of the interpreter that has run the script with the
    result [r] and left the world [w]: 0 when the script ran to its end, 1
    when an exception was not caught, and 120 in either case when lines
    were printed and the flush of [sys.stdout] at the exit fails. *)
Definition exit_status {A} (r : res A) (w : World) : Z :=
  let code := match r with Ok _ => 0 | Raise _ => 1 end in
  match pending w with
  | [] => code
  | _ :: _ => match at_exit w (pending w) with Some _ => 120 | None => code end
  end.

End Script.

(* ===================================================================== *)
(** ** What a run amounts to: draws, planned files, worlds *)
(* ===================================================================== *)

(** The vocabulary in which the behaviour of the script is stated: the
    stream of draws of a generator, the list of files that the iterations
    write when nothing fails, and the world that they leave. *)
Module Outcome.
Import OS Syscalls Numpy Script.

(** The nested loops of the script are one loop over the (size, label)
    pairs, sizes outermost. *)
Definition pairs (labels : list string) (sizes : list Z) : list (Z * string) :=
  size ← sizes; label ← labels; [(size, label)].

(** The number of elements of a [size] x [size] array. *)
Definition count (size : Z) : nat := Z.to_nat (size * size).

(** The number of draws that the iterations over [ps] consume. *)
Definition draws_of (ps : list (Z * string)) : nat :=
  sum_list_with (fun p => count p.1) ps.

Section Draw.
Context {G : Type} `{!BitGenerator G}.

(** The first [n] draws from [0, 9] of a generator, and the generator
    after them. *)
Definition stream (n : nat) (g : G) : list Z := (fill n 9 g).1.

Definition advance (n : nat) (g : G) : G := (fill n 9 g).2.

End Draw.

(** The entry of the file system that [path] names. *)
Definition key_of (path : string) : list string := default [] (resolve path).

(** The write of [n] bytes to [path] returns without an error: the path
    names something, it is not a directory, its directory is there, the
    environment lets the file be opened, and the whole blocks of the data
    get through to the device. *)
Definition can_write (w : World) (path : string) (n : Z) : bool :=
  match resolve path with
  | None => false
  | Some p =>
      negb (path_isdir w p) && path_isdir w (parent p) &&
      match faults w !! p with
      | None => true
      | Some (OpenFault _) => false
      | Some (WriteFault _ cap) => negb (Z.of_nat cap <? direct (bufsize w) n)
      end
  end.

(** What the device stores of [content] written to the entry [k]. *)
Definition stored (w : World) (k : list string) (content : list Z) : list Z :=
  match faults w !! k with
  | Some (WriteFault _ cap) => take cap content
  | _ => content
  end.


(** The world after a write of [content] to [path] that returned. *)
Definition written (path : string) (content : list Z) (w : World) : World :=
  log (EvWrite path content) (set_node (key_of path) (File (stored w (key_of path) content)) w).

(** The world after a write that raised when [content] had reached the
    file. *)
Definition cut_short (path : string) (content : list Z) (w : World) : World :=
  log (EvShortWrite path content) (set_node (key_of path) (File content) w).

(** The world after a line has been printed. *)
Definition printed (line : string) (w : World) : World :=
  log (EvPrint line) (set_pending (pending w ++ [line]) w).

(** Two worlds with the same directories and the same environment. *)
Definition same_dirs (w w' : World) : Prop :=
  faults w' = faults w /\ bufsize w' = bufsize w /\ memory w' = memory w /\
  console w' = console w /\ at_exit w' = at_exit w /\
  forall p, path_isdir w' p = path_isdir w p.

(** The console lets a process that has printed [pend] print [lines], one
    after the other. *)
Fixpoint quiet (c : list string -> option errno) (pend lines : list string) : Prop :=
  match lines with
  | [] => True
  | l :: ls => c (pend ++ [l]) = None /\ quiet c (pend ++ [l]) ls
  end.

Section Loop.
Context {G : Type} `{!BitGenerator G}.
Variable native : Int32.byteorder.
Variable output_dir : string.

(** The bytes of the file for a [size] x [size] array drawn from [g]. *)
Definition content_of (size : Z) (g : G) : list Z :=
  Int32.encode native (stream (count size) g).

(** The world after an iteration whose write returned: the file, then the
    line. *)
Definition saved (path : string) (content : list Z) (w : World) : World :=
  printed ("Saved " +:+ path) (written path content w).

(** The files that the iterations over [ps] write when nothing fails, in
    order, from the generator state [g] at the start. *)
Fixpoint plan (ps : list (Z * string)) (g : G) : list (string * list Z) :=
  match ps with
  | [] => []
  | (size, label) :: ps' =>
      (filepath_of output_dir label size, content_of size g)
        :: plan ps' (advance (count size) g)
  end.

(** The generator after the iterations over [ps]. *)
Fixpoint advance_all (ps : list (Z * string)) (g : G) : G :=
  match ps with
  | [] => g
  | (size, _) :: ps' => advance_all ps' (advance (count size) g)
  end.

(** The world after the iterations that write [pl]. *)
Definition commit (pl : list (string * list Z)) (w : World) : World :=
  foldl (fun w pc => saved pc.1 pc.2 w) w pl.

(** The lines that the iterations which write [pl] print. *)
Definition lines_of (pl : list (string * list Z)) : list string :=
  (fun pc => "Saved " +:+ pc.1) <$> pl.

(** The two loops of the script, as one loop over the pairs. *)
Definition loop (ps : list (Z * string)) : G -> M G :=
  for_each ps (fun p => iteration native output_dir p.1 p.2).

(** An iteration in which neither [integers] nor [tofile] raises. *)
Definition ok_pair (w : World) (p : Z * string) : Prop :=
  0 <= p.1 /\
  empty_error (memory w) (p.1, p.1) = None /\
  can_write w (filepath_of output_dir p.2 p.1) (Z.of_nat (4 * count p.1)) = true.

End Loop.

(** How often each of the values 0, ..., 9 occurs in a list. *)
Definition histogram (xs : list Z) : list nat :=
  (fun v => length (List.filter (Z.eqb v) xs)) <$> [0; 1; 2; 3; 4; 5; 6; 7; 8; 9].

(** What a run added to the trace. *)
Definition effects (w w' : World) : list event :=
  drop (length (trace w)) (trace w').

(** The events of iterations that ran to their end. *)
Definition events_of (pl : list (string * list Z)) : list event :=
  pc ← pl; [EvWrite pc.1 pc.2; EvPrint ("Saved " +:+ pc.1)].

(** The bytes that the last write to the entry [k] handed over. *)
Definition last_write (pl : list (string * list Z)) (k : list string) : option (list Z) :=
  foldl (fun acc pc => if bool_decide (key_of pc.1 = k) then Some pc.2 else acc) None pl.

Section Generate.
Context {G : Type} `{!BitGenerator G}.
Variable native : Int32.byteorder.
Implicit Types (labels : list string) (sizes : list Z) (dir : string) (seed : Z).

(** The files a run writes when nothing fails. *)
Definition plan_of labels sizes dir seed : list (string * list Z) :=
  plan native dir (pairs labels sizes) (seed_state seed).

End Generate.

(** The ten paths of the script as it stands. *)
Definition main_paths : list string :=
  ["matrices/A_64.bin"; "matrices/B_64.bin";
   "matrices/A_128.bin"; "matrices/B_128.bin";
   "matrices/A_256.bin"; "matrices/B_256.bin";
   "matrices/A_512.bin"; "matrices/B_512.bin";
   "matrices/A_1024.bin"; "matrices/B_1024.bin"].

End Outcome.

(* ===================================================================== *)
(** ** Directory trees and file names *)
(* ===================================================================== *)

Module Tree.
Import OS.

(** The world after the directories [made] have been created, in order. *)
Definition mkdirs_of (made : list (list string)) (w : World) : World :=
  foldl (fun w p => log (EvMkdir p) (set_node p Dir w)) w made.

(** Every entry lies in a directory: the file system is a tree. *)
Definition well_formed (w : World) : Prop :=
  forall p n, nodes w !! p = Some n -> path_isdir w (parent p) = true.

(** An entry [q] that is not there in [w] and lies along the path whose
    components, last first, are [rp]. *)
Definition along (rp : list string) (w : World) (q : list string) : Prop :=
  path_exists w q = false /\ exists rs, rs `suffix_of` rp /\ q = rev rs.

(** The entries on the way to [p], nearest the start first, [p] itself
    last. *)
Definition prefixes (p : list string) : list (list string) :=
  (fun n => take n p) <$> seq 1 (length p).

(** Those of them that are not there. *)
Definition missing (w : World) (p : list string) : list (list string) :=
  List.filter (fun q => negb (path_exists w q)) (prefixes p).

(** No separator in the string. *)
Fixpoint sep_free (s : string) : bool :=
  match s with
  | EmptyString => true
  | String c s' => negb (is_sep c) && sep_free s'
  end.

(** A file name proper: one path component. *)
Definition simple (f : string) : Prop := sep_free f = true /\ is_name f = true.

(** The resolved path of a directory given by [dir]; for the empty string
    (which [path_join] treats as the working directory) the empty list. *)
Definition dir_key (dir : string) : list string :=
  (if startswith_sep dir then ["/"] else []) ++ List.filter is_name (split_sep dir).

End Tree.

(* ===================================================================== *)
(** ** Some worlds and seeds *)
(* ===================================================================== *)

Module Worlds.
Import OS.

(** A machine with these entries and refusals in the working directory,
    with streams buffered by 4096 bytes, 16 GiB to allocate and a console
    that takes every line. *)
Definition machine (ns : gmap (list string) node) (fs : gmap (list string) fault)
    : World :=
  {| nodes := ns; faults := fs;
     bufsize := 4096; memory := 2 ^ 34;
     console := fun _ => None; at_exit := fun _ => None;
     pending := []; trace := [] |}.

(** A new working directory on a machine that refuses nothing. *)
Definition fresh : World := machine ∅ ∅.

(** A working directory where an earlier run of some other program left an
    output directory with a file named as one of the script's. *)
Definition stale : World :=
  log (EvPrint "hello")
    (machine {[ ["matrices"] := Dir;
                ["matrices"; "A_2.bin"] := File [1; 2; 3] ]} ∅).


(** The same six bytes into the file [A_32.bin], which is one whole block
    of 4096 bytes. *)
Definition no_space : World :=
  machine ∅ {[ ["matrices"; "A_32.bin"] := WriteFault ENOSPC 6 ]}.





End Worlds.

(* ===================================================================== *)
(** ** Facts about the int32 byte images *)
(* ===================================================================== *)

Module Int32Facts.
Import Int32.

Lemma byte_at_eq k u : 0 <= k -> byte_at k u = (u / 2 ^ (8 * k)) mod 256.
Proof.
  intros Hk. unfold byte_at.
  rewrite Z.shiftr_div_pow2 by lia.
  change 255 with (Z.ones 8). rewrite Z.land_ones by lia. reflexivity.
Qed.

Lemma byte_at_is_byte k u : 0 <= k -> is_byte (byte_at k u).
Proof.
  intros Hk. rewrite byte_at_eq by lia. unfold is_byte.
  apply Z.mod_pos_bound. lia.
Qed.

Lemma to_unsigned_range x : 0 <= to_unsigned x < modulus.
Proof. apply Z.mod_pos_bound. reflexivity. Qed.

Lemma to_signed_to_unsigned x : in_range x -> to_signed (to_unsigned x) = x.
Proof.
  unfold in_range, min_signed, max_signed, to_signed, to_unsigned, modulus.
  intros Hx. rewrite Z.mod_mod by lia.
  destruct (Z_lt_le_dec x 0) as [Hneg|Hpos].
  - assert (Hm : x mod 2 ^ 32 = x + 2 ^ 32).
    { symmetry. apply (Z.mod_unique_pos _ _ (-1)); lia. }
    rewrite Hm. destruct (Z.ltb_spec (x + 2 ^ 32) (2 ^ 31)); lia.
  - rewrite Z.mod_small by lia.
    destruct (Z.ltb_spec x (2 ^ 31)); lia.
Qed.

(** Gluing the four bytes of a word back together gives the word. *)
Lemma of_le_bytes_le_bytes u : 0 <= u < modulus -> of_le_bytes (le_bytes u) = u.
Proof.
  unfold modulus. intros Hu. unfold le_bytes, of_le_bytes.
  apply Z.bits_inj'. intros n Hn.
  rewrite !Z.lor_spec.
  rewrite !Z.shiftl_spec by lia.
  unfold byte_at. change 255 with (Z.ones 8).
  destruct (Z_lt_le_dec n 8) as [H8|H8].
  { rewrite Z.land_spec, Z.shiftr_spec, Z.ones_spec_low by lia.
    rewrite (Z.testbit_neg_r _ (n - 8)), (Z.testbit_neg_r _ (n - 16)),
      (Z.testbit_neg_r _ (n - 24)) by lia.
    rewrite !orb_false_r, andb_true_r. f_equal. lia. }
  destruct (Z_lt_le_dec n 16) as [H16|H16].
  { rewrite !Z.land_spec, !Z.shiftr_spec by lia.
    rewrite (Z.ones_spec_high 8 n) by lia.
    rewrite (Z.ones_spec_low 8 (n - 8)) by lia.
    rewrite (Z.testbit_neg_r _ (n - 16)), (Z.testbit_neg_r _ (n - 24)) by lia.
    rewrite andb_false_r, !orb_false_r, andb_true_r. simpl. f_equal. lia. }
  destruct (Z_lt_le_dec n 24) as [H24|H24].
  { rewrite !Z.land_spec, !Z.shiftr_spec by lia.
    rewrite (Z.ones_spec_high 8 n), (Z.ones_spec_high 8 (n - 8)) by lia.
    rewrite (Z.ones_spec_low 8 (n - 16)) by lia.
    rewrite (Z.testbit_neg_r _ (n - 24)) by lia.
    rewrite !andb_false_r, !orb_false_r, andb_true_r. simpl. f_equal. lia. }
  destruct (Z_lt_le_dec n 32) as [H32|H32].
  { rewrite !Z.land_spec, !Z.shiftr_spec by lia.
    rewrite (Z.ones_spec_high 8 n), (Z.ones_spec_high 8 (n - 8)),
      (Z.ones_spec_high 8 (n - 16)) by lia.
    rewrite (Z.ones_spec_low 8 (n - 24)) by lia.
    rewrite !andb_false_r, andb_true_r. simpl. f_equal. lia. }
  rewrite !Z.land_spec, !Z.shiftr_spec by lia.
  rewrite (Z.ones_spec_high 8 n), (Z.ones_spec_high 8 (n - 8)),
    (Z.ones_spec_high 8 (n - 16)), (Z.ones_spec_high 8 (n - 24)) by lia.
  rewrite !andb_false_r. simpl.
  symmetry. apply (Z.bits_above_log2 u n); [lia|].
  destruct (Z.eq_dec u 0) as [->|Hnz]; [simpl; lia|].
  apply Z.log2_lt_pow2; [lia|].
  apply Z.lt_le_trans with (2 ^ 32); [lia|].
  apply Z.pow_le_mono_r; lia.
Qed.

(** Storing an [int32] and loading it again gives the same number. *)
Lemma of_bytes_to_bytes o x : in_range x -> of_bytes o (to_bytes o x) = x.
Proof.
  intros Hx. destruct o; unfold of_bytes, to_bytes.
  - rewrite of_le_bytes_le_bytes by apply to_unsigned_range.
    by apply to_signed_to_unsigned.
  - rewrite rev_involutive.
    rewrite of_le_bytes_le_bytes by apply to_unsigned_range.
    by apply to_signed_to_unsigned.
Qed.

Lemma to_bytes_length o x : length (to_bytes o x) = 4%nat.
Proof. by destruct o. Qed.

Lemma to_bytes_is_byte o x : Forall is_byte (to_bytes o x).
Proof.
  destruct o; unfold to_bytes, le_bytes; simpl;
    repeat constructor; apply byte_at_is_byte; lia.
Qed.

Lemma encode_length o xs : length (encode o xs) = (4 * length xs)%nat.
Proof.
  induction xs as [|x xs IH]; [done|].
  unfold encode in *. simpl. rewrite length_app, to_bytes_length, IH. lia.
Qed.

Lemma encode_is_byte o xs : Forall is_byte (encode o xs).
Proof.
  induction xs as [|x xs IH]; [constructor|].
  unfold encode in *. simpl. apply Forall_app. split; [apply to_bytes_is_byte|done].
Qed.

Lemma encode_app o xs ys : encode o (xs ++ ys) = encode o xs ++ encode o ys.
Proof. unfold encode. apply flat_map_app. Qed.

Lemma decode_cons o x bs :
  decode o (to_bytes o x ++ bs) = of_bytes o (to_bytes o x) :: decode o bs.
Proof. destruct o; reflexivity. Qed.

(** Decoding the image of a buffer of in-range elements gives the buffer. *)
Lemma decode_encode o xs : Forall in_range xs -> decode o (encode o xs) = xs.
Proof.
  induction 1 as [|x xs Hx _ IH]; [done|].
  unfold encode in *. cbn [flat_map].
  rewrite decode_cons, of_bytes_to_bytes, IH; done.
Qed.

Lemma to_bytes_four o x : exists b0 b1 b2 b3, to_bytes o x = [b0; b1; b2; b3].
Proof. destruct o; unfold to_bytes, le_bytes; simpl; eauto. Qed.

(** Decoding a file that was cut short gives the elements that were
    written in full. *)
Lemma decode_take_encode o n xs :
  Forall in_range xs -> exists k, decode o (take n (encode o xs)) = take k xs.
Proof.
  intros Hxs. revert n. induction Hxs as [|x xs Hx _ IH]; intros n.
  { exists 0%nat. by destruct n. }
  unfold encode in *. cbn [flat_map].
  destruct (to_bytes_four o x) as (b0 & b1 & b2 & b3 & Hb).
  destruct (decide (n < 4)%nat) as [Hlt|Hge].
  - exists 0%nat. rewrite Hb.
    destruct n as [|[|[|[|n]]]]; [done..|lia].
  - destruct (IH (n - 4)%nat) as [k Hk]. exists (S k).
    rewrite take_app_ge by (rewrite to_bytes_length; lia).
    rewrite to_bytes_length, decode_cons, of_bytes_to_bytes by done.
    simpl. by rewrite Hk.
Qed.


End Int32Facts.

(* ===================================================================== *)
(** ** Facts about the fill loop of [integers] *)
(* ===================================================================== *)

Module NumpyFacts.
Import Numpy.

Section Fill.
Context {G : Type} `{!BitGenerator G}.

Lemma fill_length cnt rng g : length (fill cnt rng g).1 = cnt.
Proof.
  revert g. induction cnt as [|cnt IH]; intros g; [done|].
  simpl. destruct (bounded_uint32 rng g) as [x g1].
  specialize (IH g1). destruct (fill cnt rng g1) as [xs g2]. simpl in *. lia.
Qed.

Lemma fill_range cnt rng g :
  0 <= rng < Int32.modulus -> Forall (fun x => 0 <= x <= rng) (fill cnt rng g).1.
Proof.
  intros Hrng. revert g. induction cnt as [|cnt IH]; intros g; [constructor|].
  simpl. pose proof (bounded_uint32_range rng g Hrng) as Hx.
  destruct (bounded_uint32 rng g) as [x g1].
  specialize (IH g1). destruct (fill cnt rng g1) as [xs g2]. simpl in *.
  by constructor.
Qed.

(** Drawing [n + m] numbers is drawing [n] and then [m]: consecutive
    arrays are consecutive slices of one stream. *)
Lemma fill_add n m rng g :
  fill (n + m) rng g =
  let '(xs, g1) := fill n rng g in
  let '(ys, g2) := fill m rng g1 in
  (xs ++ ys, g2).
Proof.
  revert g. induction n as [|n IH]; intros g.
  - simpl. by destruct (fill m rng g).
  - simpl. destruct (bounded_uint32 rng g) as [x g1].
    rewrite IH. destruct (fill n rng g1) as [xs g2].
    by destruct (fill m rng g2).
Qed.

End Fill.

End NumpyFacts.

(* ===================================================================== *)
(** ** The generator of numpy on its published first draws *)
(* ===================================================================== *)

Module PCG64Facts.
Import Numpy PCG64.

(** The first draws of [default_rng(42).integers(0, 10, ...)]. *)
Example first_draws_seed_42 :
  (fill 10 9 (seed 42)).1 = [0; 7; 6; 4; 4; 8; 0; 6; 2; 0].
Proof. vm_compute. reflexivity. Qed.

(** At the seed 42 the first output is kept, and gives the draw 0. *)
Example first_kept_seed_42 :
  (fun p => value_of 9 p.1) <$>
    first_kept MAX_REJECTIONS 9 (next_uint32 (seed 42)).1 (next_uint32 (seed 42)).2
  = Some 0.
Proof. vm_compute. reflexivity. Qed.

(** The rejection loop stops at the first kept output. *)
Lemma reject_first_kept fuel rng x g x' g' :
  first_kept fuel rng x g = Some (x', g') ->
  reject fuel (rng + 1) ((0xFFFFFFFF - rng) mod (rng + 1)) (x * (rng + 1)) g
  = (x' * (rng + 1), g').
Proof.
  revert x g. induction fuel as [|fuel IH]; intros x g; simpl; unfold kept.
  - destruct (_ <? _); simpl; [done|]. by intros [= -> ->].
  - destruct (_ <? _); simpl; [|by intros [= -> ->]].
    destruct (next_uint32 g) as [x1 g1]. apply IH.
Qed.

(** A bounded draw from a range that is neither empty nor full is the high
    half of the product for the first 32 bit output that is kept. *)
Lemma bounded_first_kept rng g x g' :
  0 < rng < 0xFFFFFFFF ->
  first_kept MAX_REJECTIONS rng (next_uint32 g).1 (next_uint32 g).2 = Some (x, g') ->
  bounded rng g = (value_of rng x, g').
Proof.
  intros Hrng Hfirst. unfold bounded.
  destruct (Z.eqb_spec rng 0) as [->|_]; [lia|].
  destruct (Z.eqb_spec rng 4294967295) as [->|_]; [lia|].
  unfold bounded_lemire_uint32.
  destruct (next_uint32 g) as [x0 g0]. cbn [fst snd] in Hfirst.
  destruct (Z.land (x0 * (rng + 1)) 4294967295 <? rng + 1) eqn:Hlow.
  - by rewrite (reject_first_kept _ _ _ _ _ _ Hfirst).
  - assert (Hkept : kept rng x0 = true).
    { unfold kept. apply negb_true_iff, Z.ltb_ge. apply Z.ltb_ge in Hlow.
      pose proof (Z.mod_pos_bound (4294967295 - rng) (rng + 1) ltac:(lia)). lia. }
    destruct MAX_REJECTIONS; simpl in Hfirst; rewrite Hkept in Hfirst;
      by injection Hfirst as -> ->.
Qed.

(** For the range [0, 9] the kept outputs that give the draw [v] are the
    429496729 consecutive 32 bit numbers from [(v * 2^32 + 15) / 10] on:
    every one of the ten values has as many raw outputs as any other. *)
Lemma kept_balanced x v :
  kept 9 x = true /\ value_of 9 x = v <->
  (v * 2 ^ 32 + 15) / 10 <= x < (v * 2 ^ 32 + 15) / 10 + 429496729.
Proof.
  unfold kept, value_of.
  change 4294967295 with (Z.ones 32). rewrite Z.land_ones by lia.
  rewrite Z.shiftr_div_pow2 by lia.
  change ((Z.ones 32 - 9) mod (9 + 1)) with 6. change (9 + 1) with 10.
  rewrite negb_true_iff, Z.ltb_ge.
  change (2 ^ 32) with 4294967296.
  pose proof (Z.div_mod (x * 10) 4294967296 ltac:(lia)).
  pose proof (Z.mod_pos_bound (x * 10) 4294967296 ltac:(lia)).
  pose proof (Z.div_mod (v * 4294967296 + 15) 10 ltac:(lia)).
  pose proof (Z.mod_pos_bound (v * 4294967296 + 15) 10 ltac:(lia)).
  lia.
Qed.

End PCG64Facts.

(* ===================================================================== *)
(** ** Reasoning about computations and loops *)
(* ===================================================================== *)

Module Loops.
Import OS Script Outcome.

Lemma bind_run {A B} (m : M A) (k : A -> M B) w :
  (m ≫= k) w = match m w with
               | (Ok a, w') => k a w'
               | (Raise e, w') => (Raise e, w')
               end.
Proof. reflexivity. Qed.

Lemma ret_run {A} (a : A) w : (mret a : M A) w = (Ok a, w).
Proof. reflexivity. Qed.

Lemma bind_ok {A B} (m : M A) (k : A -> M B) w a w' :
  m w = (Ok a, w') -> (m ≫= k) w = k a w'.
Proof. intros H. by rewrite bind_run, H. Qed.

Lemma bind_raise {A B} (m : M A) (k : A -> M B) w e w' :
  m w = (Raise e, w') -> (m ≫= k) w = (Raise e, w').
Proof. intros H. by rewrite bind_run, H. Qed.

Section ForEach.
Context {A S : Type}.
Implicit Types (xs : list A) (body : A -> S -> M S).

Lemma for_each_nil body s w : for_each [] body s w = (Ok s, w).
Proof. reflexivity. Qed.

Lemma for_each_cons x xs body s w :
  for_each (x :: xs) body s w =
  match body x s w with
  | (Ok s', w') => for_each xs body s' w'
  | (Raise e, w') => (Raise e, w')
  end.
Proof. reflexivity. Qed.

(** A loop over [xs ++ ys] is the loop over [xs] followed by the one over
    [ys], unless the first raises. *)
Lemma for_each_app xs ys body s w :
  for_each (xs ++ ys) body s w =
  match for_each xs body s w with
  | (Ok s', w') => for_each ys body s' w'
  | (Raise e, w') => (Raise e, w')
  end.
Proof.
  revert s w. induction xs as [|x xs IH]; intros s w; [done|].
  simpl app. rewrite !for_each_cons.
  destruct (body x s w) as [[s'|e] w']; [apply IH|done].
Qed.

(** A loop that raises ran some iterations to their end and raised in the
    next one; the iterations after it were not started. *)
Lemma for_each_raise xs body s w e w' :
  for_each xs body s w = (Raise e, w') ->
  exists done x rest s1 w1,
    xs = done ++ x :: rest /\
    for_each done body s w = (Ok s1, w1) /\
    body x s1 w1 = (Raise e, w').
Proof.
  revert s w. induction xs as [|x xs IH]; intros s w; [done|].
  rewrite for_each_cons. destruct (body x s w) as [[s'|e'] w1] eqn:Hx.
  - intros Hrest. destruct (IH _ _ Hrest) as (done & y & rest & s1 & w2 & -> & Hdone & Hy).
    exists (x :: done), y, rest, s1, w2. split; [done|]. split; [|done].
    by rewrite for_each_cons, Hx.
  - intros [= -> ->]. exists [], x, xs, s, w. by rewrite for_each_nil.
Qed.

End ForEach.

Lemma for_each_pairs {S} labels sizes (body : Z -> string -> S -> M S) s w :
  for_each sizes (fun size => for_each labels (fun label => body size label)) s w =
  for_each (pairs labels sizes) (fun p => body p.1 p.2) s w.
Proof.
  unfold pairs. revert s w. induction sizes as [|size sizes IH]; intros s w; [done|].
  rewrite for_each_cons. cbn [mbind list_bind]. fold (@app (Z * string)).
  rewrite for_each_app.
  assert (Hin : forall s w, for_each labels (fun label => body size label) s w =
                 for_each (label ← labels; [(size, label)])
                   (fun p => body p.1 p.2) s w).
  { clear. induction labels as [|l labels IH]; intros s w; [done|].
    cbn [mbind list_bind app]. rewrite !for_each_cons. simpl.
    destruct (body size l s w) as [[s'|e] w']; [apply IH|done]. }
  rewrite <- Hin.
  destruct (for_each labels _ s w) as [[s'|e] w']; [apply IH|done].
Qed.

End Loops.

(* ===================================================================== *)
(** ** What one call of [integers] and one [tofile] do *)
(* ===================================================================== *)

Module Steps.
Import OS Syscalls Numpy NumpyFacts Script Outcome Tree Loops.

(** *** [rng.integers(low=0, high=10, size=(size, size), dtype=np.int32)] *)

Section Draw.
Context {G : Type} `{!BitGenerator G}.

Lemma stream_length n g : length (stream n g) = n.
Proof. apply fill_length. Qed.

Lemma stream_range n g : Forall (fun x => 0 <= x <= 9) (stream n g).
Proof. apply fill_range. unfold Int32.modulus. lia. Qed.

Lemma stream_add n m g : stream (n + m) g = stream n g ++ stream m (advance n g).
Proof.
  unfold stream, advance. rewrite fill_add.
  destruct (fill n 9 g) as [xs g1]. simpl. by destruct (fill m 9 g1).
Qed.

Lemma advance_add n m g : advance (n + m) g = advance m (advance n g).
Proof.
  unfold advance. rewrite fill_add.
  destruct (fill n 9 g) as [xs g1]. simpl. by destruct (fill m 9 g1).
Qed.

Lemma small_is_int32 x : 0 <= x <= 9 -> Int32.in_range x.
Proof. unfold Int32.in_range, Int32.min_signed, Int32.max_signed. lia. Qed.

(** With [low = 0] the stored element is the draw itself. *)
Lemma store_draw x :
  0 <= x <= 9 ->
  Int32.to_signed (Int32.to_unsigned (Int32.to_unsigned 0 + x)) = x.
Proof.
  intros Hx. change (Int32.to_unsigned 0) with 0. rewrite Z.add_0_l.
  by apply Int32Facts.to_signed_to_unsigned, small_is_int32.
Qed.

Lemma empty_error_ok avail size :
  empty_error avail (size, size) = None -> 0 <= size.
Proof.
  unfold empty_error. rewrite orb_diag. destruct (Z.ltb_spec size 0); [done|lia].
Qed.

(** The call of the script.  What the allocation of the array raises, it
    raises; otherwise the array holds the next [size * size] draws, in C
    order. *)
Lemma integers_script avail size g :
  integers avail 0 10 (size, size) g =
  match empty_error avail (size, size) with
  | Some e => Raise e
  | None => Ok ({| shape := (size, size); data := stream (count size) g |},
               advance (count size) g)
  end.
Proof.
  unfold integers. destruct (Z.eqb_spec (size * size) 0) as [Hz|Hnz].
  { assert (size = 0) as -> by nia. done. }
  change (0 <? Int32.min_signed) with false.
  change (Int32.max_signed <? 10 - 1) with false.
  change (10 - 1 <? 0) with false. cbv iota.
  destruct (empty_error avail (size, size)); [done|].
  change (10 - 1 - 0) with 9. fold (count size).
  unfold stream, advance.
  pose proof (fill_range (count size) 9 g) as Hr.
  destruct (fill (count size) 9 g) as [out g']. simpl in *.
  do 2 f_equal. f_equal.
  assert (H9 : 0 <= 9 < Int32.modulus) by (unfold Int32.modulus; lia).
  specialize (Hr H9). clear H9.
  induction Hr as [|x xs Hx _ IH]; [done|].
  rewrite fmap_cons, store_draw, IH; done.
Qed.

End Draw.

(** *** Writing a file *)

Lemma same_dirs_refl w : same_dirs w w.
Proof. by repeat split. Qed.

Lemma same_dirs_trans w1 w2 w3 : same_dirs w1 w2 -> same_dirs w2 w3 -> same_dirs w1 w3.
Proof.
  intros (Hf1 & Hb1 & Hm1 & Hc1 & He1 & Hd1) (Hf2 & Hb2 & Hm2 & Hc2 & He2 & Hd2).
  repeat split; [congruence..|]. intros p. by rewrite Hd2, Hd1.
Qed.

Lemma same_dirs_log ev w : same_dirs w (log ev w).
Proof. by repeat split. Qed.

Lemma same_dirs_set_pending ls w : same_dirs w (set_pending ls w).
Proof. by repeat split. Qed.

Lemma same_dirs_printed line w : same_dirs w (printed line w).
Proof. by repeat split. Qed.

Lemma check_parent_isdir w p :
  check_parent w p = None <-> path_isdir w (parent p) = true.
Proof.
  unfold check_parent, path_isdir.
  destruct (stat w (parent p)) as [[|c]|]; naive_solver.
Qed.

Lemma path_isdir_set_file w p c q :
  path_isdir w p = false ->
  path_isdir (set_node p (File c) w) q = path_isdir w q.
Proof.
  unfold path_isdir, stat, set_node. simpl. intros Hp.
  destruct (is_root q) eqn:Hq; [done|].
  destruct (decide (p = q)) as [->|Hne].
  - rewrite lookup_insert_eq. rewrite Hq in Hp.
    by destruct (nodes w !! q) as [[|?]|].
  - by rewrite lookup_insert_ne.
Qed.

Lemma same_dirs_set_file w p c :
  path_isdir w p = false -> same_dirs w (set_node p (File c) w).
Proof. intros Hp. repeat split. intros q. by apply path_isdir_set_file. Qed.

Lemma can_write_same_dirs w w' path n :
  same_dirs w w' -> can_write w' path n = can_write w path n.
Proof.
  intros (Hf & Hb & _ & _ & _ & Hd). unfold can_write. destruct (resolve path); [|done].
  by rewrite !Hd, Hf, Hb.
Qed.

Lemma can_write_resolve w path n :
  can_write w path n = true -> resolve path = Some (key_of path).
Proof.
  unfold can_write, key_of. by destruct (resolve path).
Qed.

Lemma can_write_not_dir w path n :
  can_write w path n = true -> path_isdir w (key_of path) = false.
Proof.
  unfold can_write, key_of. destruct (resolve path) as [p|]; [|done].
  simpl. intros H. apply andb_prop in H as [H _]. apply andb_prop in H as [H _].
  by apply negb_true_iff.
Qed.

Lemma can_write_parent w path n :
  can_write w path n = true -> path_isdir w (parent (key_of path)) = true.
Proof.
  unfold can_write, key_of. destruct (resolve path) as [p|]; [|done].
  simpl. intros H. apply andb_prop in H as [H _]. by apply andb_prop in H as [_ H].
Qed.

Lemma same_dirs_written w path content n :
  can_write w path n = true -> same_dirs w (written path content w).
Proof.
  intros Hc. unfold written.
  eapply same_dirs_trans; [|apply same_dirs_log].
  by eapply same_dirs_set_file, can_write_not_dir.
Qed.

(** Without a fault on the file the device keeps all of it; with one, what
    it keeps is a prefix. *)
Lemma stored_all w k content : faults w !! k = None -> stored w k content = content.
Proof. unfold stored. by intros ->. Qed.

Lemma stored_take w k content : exists n, stored w k content = take n content.
Proof.
  unfold stored. destruct (faults w !! k) as [[e|e cap]|].
  - exists (length content). by rewrite take_ge.
  - by exists cap.
  - exists (length content). by rewrite take_ge.
Qed.

Lemma stored_same_dirs w w' k content :
  same_dirs w w' -> stored w' k content = stored w k content.
Proof. intros (Hf & _). unfold stored. by rewrite Hf. Qed.

(** A write that returns. *)
Lemma write_file_ok w path isz content :
  can_write w path (Z.of_nat (length content)) = true ->
  write_file path isz content w = (Ok tt, written path content w).
Proof.
  unfold can_write, write_file, written, stored, key_of.
  destruct (resolve path) as [p|]; [|done]. cbn [default from_option id].
  intros H. apply andb_prop in H as [H Hf]. apply andb_prop in H as [Hd Hp].
  apply negb_true_iff in Hd. apply check_parent_isdir in Hp. rewrite Hd, Hp.
  destruct (faults w !! p) as [[e|e cap]|]; [done| |done].
  apply negb_true_iff in Hf. by rewrite Hf.
Qed.

(** The outcomes of a write.  It returns; or it raises and leaves the
    world as it was; or it raises because whole blocks did not get through
    and leaves a file cut short. *)
Lemma write_file_cases w path isz content :
  (can_write w path (Z.of_nat (length content)) = true /\
   write_file path isz content w = (Ok tt, written path content w)) \/
  (can_write w path (Z.of_nat (length content)) = false /\
   ((exists err, write_file path isz content w = (Raise (OSError err), w)) \/
    exists err cap,
      path_isdir w (key_of path) = false /\
      faults w !! key_of path = Some (WriteFault err cap) /\
      Z.of_nat cap < direct (bufsize w) (Z.of_nat (length content)) /\
      write_file path isz content w =
        (Raise (ShortWriteError (Z.of_nat (length content) / isz) (Z.of_nat cap / isz)),
         cut_short path (take cap content) w))).
Proof.
  destruct (can_write w path (Z.of_nat (length content))) eqn:Hc;
    [left; split; [done|by apply write_file_ok]|].
  right. split; [done|]. revert Hc.
  unfold can_write, write_file, cut_short, key_of.
  destruct (resolve path) as [p|]; [|by left; exists ENOENT]. cbn [default from_option id].
  destruct (path_isdir w p) eqn:Hd; [by left; exists EISDIR|].
  destruct (check_parent w p) as [e|] eqn:Hp; [by left; exists e|].
  apply check_parent_isdir in Hp. rewrite Hp. simpl.
  destruct (faults w !! p) as [[e|e cap]|] eqn:Hf; [by left; exists e| |done].
  intros Hlt. apply negb_false_iff in Hlt. rewrite Hlt.
  right. exists e, cap. split; [done|]. split; [done|]. split; [|done].
  by apply Z.ltb_lt.
Qed.

End Steps.

(* ===================================================================== *)
(** ** The loop of the script, iteration by iteration *)
(* ===================================================================== *)

Module Run.
Import OS Syscalls Numpy NumpyFacts Script Outcome Tree Loops Steps.

Section Loop.
Context {G : Type} `{!BitGenerator G}.
Variable native : Int32.byteorder.
Variable output_dir : string.

Local Abbreviation content_of := (Outcome.content_of native).
Local Abbreviation plan := (Outcome.plan native output_dir).
Local Abbreviation loop := (Outcome.loop native output_dir).
Local Abbreviation ok_pair := (Outcome.ok_pair output_dir).

Lemma content_of_length size g : length (content_of size g) = (4 * count size)%nat.
Proof.
  unfold Outcome.content_of. by rewrite Int32Facts.encode_length, stream_length.
Qed.

Lemma iteration_run size label g w :
  iteration native output_dir size label g w =
  match empty_error (memory w) (size, size) with
  | Some e => (Raise e, w)
  | None =>
      match write_file (filepath_of output_dir label size) itemsize (content_of size g) w with
      | (Ok _, w1) =>
          match console w1 (pending w1 ++ ["Saved " +:+ filepath_of output_dir label size]) with
          | Some e =>
              (Raise (OSError e), printed ("Saved " +:+ filepath_of output_dir label size) w1)
          | None =>
              (Ok (advance (count size) g),
               printed ("Saved " +:+ filepath_of output_dir label size) w1)
          end
      | (Raise e, w1) => (Raise e, w1)
      end
  end.
Proof.
  unfold iteration. rewrite bind_run. unfold gets. rewrite bind_run.
  unfold lift. rewrite integers_script.
  destruct (empty_error (memory w) (size, size)); [done|].
  rewrite bind_run. unfold tofile, tobytes. simpl data.
  fold (filepath_of output_dir label size). fold (content_of size g).
  destruct (write_file _ _ _ w) as [[[]|e] w1]; [|done].
  rewrite bind_run. unfold print. cbn [console pending log set_pending].
  fold (printed ("Saved " +:+ filepath_of output_dir label size) w1).
  by destruct (console w1 _).
Qed.

(** An iteration that is not refused leaves the file and the line; it
    raises only if the console fails at the line. *)
Lemma iteration_ok size label g w :
  ok_pair w (size, label) ->
  iteration native output_dir size label g w =
  match console w (pending w ++ ["Saved " +:+ filepath_of output_dir label size]) with
  | Some e =>
      (Raise (OSError e), saved (filepath_of output_dir label size) (content_of size g) w)
  | None =>
      (Ok (advance (count size) g),
       saved (filepath_of output_dir label size) (content_of size g) w)
  end.
Proof.
  intros (Hs & Hm & Hc). cbn [fst snd] in *. rewrite iteration_run, Hm.
  rewrite write_file_ok by (by rewrite content_of_length). done.
Qed.

Lemma iteration_ok_inv size label g w g' w' :
  iteration native output_dir size label g w = (Ok g', w') ->
  ok_pair w (size, label) /\
  console w (pending w ++ ["Saved " +:+ filepath_of output_dir label size]) = None.
Proof.
  rewrite iteration_run. unfold Outcome.ok_pair. cbn [fst snd].
  destruct (empty_error (memory w) (size, size)) eqn:Hm; [done|].
  pose proof (empty_error_ok _ _ Hm) as Hs.
  destruct (write_file_cases w (filepath_of output_dir label size) itemsize
              (content_of size g))
    as [[Hc Hw]|[_ [(err & Hw)|(err & cap & _ & _ & _ & Hw)]]]; rewrite Hw; [|done..].
  rewrite content_of_length in Hc.
  cbn [console pending written log set_node].
  by destruct (console w _).
Qed.

(** How an iteration fails.  The allocation in [integers] raises; or the
    write raises, leaving the world as it was or, when whole blocks did
    not get through, a file cut short; or file and line are there and the
    console fails at the line. *)
Lemma iteration_raise size label g w e w' :
  iteration native output_dir size label g w = (Raise e, w') ->
  (~ ok_pair w (size, label) /\
   ((empty_error (memory w) (size, size) = Some e /\ w' = w) \/
    (0 <= size /\
     write_file (filepath_of output_dir label size) itemsize (content_of size g) w
       = (Raise e, w') /\
     ((exists err, e = OSError err /\ w' = w) \/
      exists err cap,
        path_isdir w (key_of (filepath_of output_dir label size)) = false /\
        faults w !! key_of (filepath_of output_dir label size) = Some (WriteFault err cap) /\
        Z.of_nat cap < direct (bufsize w) (Z.of_nat (4 * count size)) /\
        e = ShortWriteError (Z.of_nat (4 * count size) / itemsize)
              (Z.of_nat cap / itemsize) /\
        w' = cut_short (filepath_of output_dir label size)
               (take cap (content_of size g)) w)))) \/
  (ok_pair w (size, label) /\
   exists err,
     console w (pending w ++ ["Saved " +:+ filepath_of output_dir label size]) = Some err /\
     e = OSError err /\
     w' = saved (filepath_of output_dir label size) (content_of size g) w).
Proof.
  rewrite iteration_run. unfold Outcome.ok_pair. cbn [fst snd].
  destruct (empty_error (memory w) (size, size)) as [e0|] eqn:Hm.
  { intros [= <- <-]. left. split; [by intros (_ & ? & _)|]. by left. }
  pose proof (empty_error_ok _ _ Hm) as Hs.
  destruct (write_file_cases w (filepath_of output_dir label size) itemsize
              (content_of size g))
    as [[Hc Hw]|[Hc [(err & Hw)|(err & cap & Hd & Hf & Hlt & Hw)]]]; rewrite Hw;
    rewrite content_of_length in *.
  - cbn [console pending written log set_node].
    destruct (console w _) as [err|] eqn:Hcon; [|done].
    intros [= <- <-]. right. split; [done|]. by exists err.
  - intros [= <- <-]. left. split; [rewrite Hc; by intros (_ & _ & ?)|].
    right. split; [done|]. split; [done|]. left. by exists err.
  - intros [= <- <-]. left. split; [rewrite Hc; by intros (_ & _ & ?)|].
    right. split; [done|]. split; [done|]. right. by exists err, cap.
Qed.

Lemma same_dirs_saved w path content n :
  can_write w path n = true -> same_dirs w (saved path content w).
Proof.
  intros Hc. unfold saved.
  eapply same_dirs_trans; [by eapply same_dirs_written|apply same_dirs_printed].
Qed.

Lemma same_dirs_sym w w' : same_dirs w w' -> same_dirs w' w.
Proof. intros (? & ? & ? & ? & ? & ?). by repeat split. Qed.

Lemma ok_pair_same_dirs w w' p : same_dirs w w' -> ok_pair w p -> ok_pair w' p.
Proof.
  intros Hs (H0 & Hm & Hc). split; [done|].
  rewrite (can_write_same_dirs w w') by done.
  destruct Hs as (_ & _ & -> & _). done.
Qed.

Lemma commit_cons pc pl w : commit (pc :: pl) w = commit pl (saved pc.1 pc.2 w).
Proof. reflexivity. Qed.

Lemma commit_app pl1 pl2 w : commit (pl1 ++ pl2) w = commit pl2 (commit pl1 w).
Proof. apply foldl_app. Qed.


Lemma quiet_app c pend ls1 ls2 :
  quiet c pend (ls1 ++ ls2) <-> quiet c pend ls1 /\ quiet c (pend ++ ls1) ls2.
Proof.
  revert pend. induction ls1 as [|l ls1 IH]; intros pend.
  - rewrite app_nil_r. cbn. tauto.
  - cbn [app quiet]. rewrite IH, <- app_assoc. cbn [app]. tauto.
Qed.

Lemma plan_app ps1 ps2 g :
  plan (ps1 ++ ps2) g = plan ps1 g ++ plan ps2 (advance_all ps1 g).
Proof.
  revert g. induction ps1 as [|[size label] ps1 IH]; intros g; [done|].
  simpl. by rewrite IH.
Qed.

Lemma plan_length ps g : length (plan ps g) = length ps.
Proof.
  revert g. induction ps as [|[size label] ps IH]; intros g; [done|].
  simpl. by rewrite IH.
Qed.

(** When no iteration is refused and the console takes the lines the loop
    runs to its end, and the world is the one with all the files of the
    plan written and announced. *)
Lemma loop_ok ps g w :
  Forall (ok_pair w) ps ->
  quiet (console w) (pending w) (lines_of (plan ps g)) ->
  loop ps g w = (Ok (advance_all ps g), commit (plan ps g) w).
Proof.
  unfold Outcome.loop. revert g w. induction ps as [|[size label] ps IH]; intros g w Hall Hq.
  { done. }
  apply Forall_cons in Hall as [Hp Hall]. destruct Hq as [Hq1 Hq].
  rewrite for_each_cons. cbn [fst snd].
  rewrite iteration_ok by done. cbn [fst] in Hq1. rewrite Hq1.
  destruct Hp as (H0 & Hm & Hc).
  pose proof (same_dirs_saved w (filepath_of output_dir label size) (content_of size g) _ Hc)
    as Hs.
  cbn [Outcome.plan]. rewrite commit_cons. apply IH.
  - eapply Forall_impl; [exact Hall|]. intros p. by apply ok_pair_same_dirs.
  - cbn [fst snd]. destruct Hs as (_ & _ & _ & -> & _). exact Hq.
Qed.

(** The files leave the directories and the environment as they are. *)
Lemma commit_same_dirs ps g w :
  Forall (ok_pair w) ps -> same_dirs w (commit (plan ps g) w).
Proof.
  revert g w. induction ps as [|[size label] ps IH]; intros g w Hall.
  { apply same_dirs_refl. }
  apply Forall_cons in Hall as [(H0 & Hm & Hc) Hall].
  pose proof (same_dirs_saved w (filepath_of output_dir label size) (content_of size g) _ Hc)
    as Hs.
  cbn [Outcome.plan]. rewrite commit_cons.
  eapply same_dirs_trans; [exact Hs|]. apply IH.
  eapply Forall_impl; [exact Hall|]. intros p. by apply ok_pair_same_dirs.
Qed.

Lemma loop_ok_inv ps g w g' w' :
  loop ps g w = (Ok g', w') ->
  Forall (ok_pair w) ps /\ quiet (console w) (pending w) (lines_of (plan ps g)).
Proof.
  unfold Outcome.loop. revert g w. induction ps as [|[size label] ps IH]; intros g w; [done|].
  rewrite for_each_cons. cbn [fst snd].
  destruct (iteration _ _ _ _ g w) as [[g1|e] w1] eqn:Hit; [|done].
  intros Hrest. destruct (iteration_ok_inv _ _ _ _ _ _ Hit) as [Hp Hcon].
  rewrite iteration_ok, Hcon in Hit by done. injection Hit as <- <-.
  destruct Hp as (H0 & Hm & Hc).
  pose proof (same_dirs_saved w (filepath_of output_dir label size) (content_of size g) _ Hc)
    as Hs.
  destruct (IH _ _ Hrest) as [Hall Hq]. split.
  - constructor; [done|]. eapply Forall_impl; [exact Hall|].
    intros p. apply ok_pair_same_dirs. by apply same_dirs_sym.
  - cbn [Outcome.plan lines_of fmap list_fmap quiet fst]. split; [done|].
    destruct Hs as (_ & _ & _ & Hc' & _). rewrite Hc' in Hq. exact Hq.
Qed.

(** A loop that raises: the iterations before the failing one ran to
    their end, and none is started after it. *)
Lemma loop_raise ps g w e w' :
  loop ps g w = (Raise e, w') ->
  exists done p rest,
    ps = done ++ p :: rest /\
    Forall (ok_pair w) done /\
    quiet (console w) (pending w) (lines_of (plan done g)) /\
    iteration native output_dir p.1 p.2 (advance_all done g) (commit (plan done g) w)
      = (Raise e, w').
Proof.
  unfold Outcome.loop. intros Hr.
  apply for_each_raise in Hr as (done & p & rest & g1 & w1 & -> & Hdone & Hp).
  exists done, p, rest. split; [done|].
  destruct (loop_ok_inv _ _ _ _ _ Hdone) as [Hall Hq]. split; [done|]. split; [done|].
  pose proof (loop_ok done g w Hall Hq) as Hok. unfold Outcome.loop in Hok.
  rewrite Hok in Hdone. by injection Hdone as <- <-.
Qed.

End Loop.

End Run.

(* ===================================================================== *)
(** ** [os.makedirs(OUTPUT_DIR, exist_ok=True)] *)
(* ===================================================================== *)

Module Makedirs.
Import OS Syscalls Outcome Tree Loops Steps.

Lemma mkdirs_of_snoc made p w :
  mkdirs_of (made ++ [p]) w = log (EvMkdir p) (set_node p Dir (mkdirs_of made w)).
Proof. unfold mkdirs_of. by rewrite foldl_snoc. Qed.

Lemma mkdirs_of_app made1 made2 w :
  mkdirs_of (made1 ++ made2) w = mkdirs_of made2 (mkdirs_of made1 w).
Proof. apply foldl_app. Qed.

Lemma mkdirs_of_faults made w : faults (mkdirs_of made w) = faults w.
Proof.
  induction made as [|p made IH] using rev_ind; [done|].
  by rewrite mkdirs_of_snoc.
Qed.


Lemma mkdirs_of_console made w : console (mkdirs_of made w) = console w.
Proof.
  induction made as [|p made IH] using rev_ind; [done|].
  by rewrite mkdirs_of_snoc.
Qed.

Lemma mkdirs_of_pending made w : pending (mkdirs_of made w) = pending w.
Proof.
  induction made as [|p made IH] using rev_ind; [done|].
  by rewrite mkdirs_of_snoc.
Qed.

Lemma mkdirs_of_trace made w :
  trace (mkdirs_of made w) = trace w ++ (EvMkdir <$> made).
Proof.
  induction made as [|p made IH] using rev_ind; [by rewrite app_nil_r|].
  rewrite mkdirs_of_snoc. simpl. rewrite IH, fmap_app. by rewrite <- app_assoc.
Qed.

Lemma mkdirs_of_nodes made w q :
  nodes (mkdirs_of made w) !! q = if bool_decide (q ∈ made) then Some Dir else nodes w !! q.
Proof.
  induction made as [|p made IH] using rev_ind.
  { by rewrite bool_decide_eq_false_2 by apply not_elem_of_nil. }
  rewrite mkdirs_of_snoc. simpl.
  destruct (decide (p = q)) as [->|Hne].
  - rewrite lookup_insert_eq. rewrite bool_decide_eq_true_2; [done|].
    apply elem_of_app. right. by apply list_elem_of_singleton.
  - rewrite lookup_insert_ne by done. rewrite IH.
    apply (f_equal (fun b : bool => if b then Some Dir else nodes w !! q)).
    apply bool_decide_ext. rewrite elem_of_app, list_elem_of_singleton.
    split; [by left|]. intros [Hq|Hq]; [done|congruence].
Qed.

Lemma stat_mkdirs_of made w q :
  stat (mkdirs_of made w) q =
  if is_root q then Some Dir
  else if bool_decide (q ∈ made) then Some Dir else nodes w !! q.
Proof. unfold stat. by rewrite mkdirs_of_nodes. Qed.

(** What [mkdir] does: it creates the directory, or raises an [OSError]
    and changes nothing. *)
Lemma mkdir_cases p dot w :
  (path_exists w p = false /\ path_isdir w (parent p) = true /\
   faults w !! p = None /\
   mkdir p dot w = (Ok tt, mkdirs_of [p] w)) \/
  (exists err, mkdir p dot w = (Raise (OSError err), w)).
Proof.
  unfold mkdir. destruct (path_exists w p) eqn:He; [right; by eexists|].
  destruct (check_parent w p) as [e|] eqn:Hp; [right; by exists e|].
  apply check_parent_isdir in Hp.
  destruct (faults w !! p) as [f|]; [right; by exists (fault_errno f)|].
  by left.
Qed.

Lemma mkdir_exist_ok_cases p dot w :
  (path_exists w p = false /\ path_isdir w (parent p) = true /\
   faults w !! p = None /\
   mkdir_exist_ok p true dot w = (Ok tt, mkdirs_of [p] w)) \/
  (path_isdir w p = true /\ mkdir_exist_ok p true dot w = (Ok tt, w)) \/
  (path_isdir w p = false /\
   exists err, mkdir_exist_ok p true dot w = (Raise (OSError err), w)).
Proof.
  unfold mkdir_exist_ok, catch.
  destruct (mkdir_cases p dot w) as [(He & Hp & Hf & ->)|[err ->]]; [by left|].
  right. rewrite bind_run. unfold gets.
  destruct (path_isdir w p) eqn:Hd; [by left|].
  right. split; [done|]. by exists err.
Qed.

(** The environment's refusal of a directory that is not there shows as
    the error of [mkdir]. *)
Lemma mkdir_refused p dot w f :
  path_exists w p = false -> path_isdir w (parent p) = true ->
  faults w !! p = Some f ->
  mkdir_exist_ok p true dot w = (Raise (OSError (fault_errno f)), w).
Proof.
  intros He Hp Hf. unfold mkdir_exist_ok, catch, mkdir.
  apply check_parent_isdir in Hp. rewrite He, Hp, Hf.
  rewrite bind_run. unfold gets.
  assert (Hd : path_isdir w p = false).
  { revert He. unfold path_exists, path_isdir. by destruct (stat w p). }
  by rewrite Hd.
Qed.

Lemma path_isdir_exists w p : path_isdir w p = true -> path_exists w p = true.
Proof. unfold path_isdir, path_exists. by destruct (stat w p) as [[|?]|]. Qed.

Lemma is_root_parent p : is_root p = true -> is_root (parent p) = true.
Proof. destruct p as [|c [|c' p]]; done. Qed.

Lemma path_isdir_root w p : is_root p = true -> path_isdir w p = true.
Proof. unfold path_isdir, stat. by intros ->. Qed.

Lemma well_formed_mkdir w p :
  well_formed w -> path_isdir w (parent p) = true -> path_exists w p = false ->
  well_formed (mkdirs_of [p] w).
Proof.
  intros Hwf Hp He q n. simpl. intros Hq.
  assert (Hmono : forall r, path_isdir w r = true ->
            path_isdir (set_node p Dir w) r = true).
  { intros r. unfold path_isdir, stat. simpl.
    destruct (is_root r); [done|].
    destruct (decide (p = r)) as [->|Hne];
      [by rewrite lookup_insert_eq|by rewrite lookup_insert_ne]. }
  change (path_isdir (set_node p Dir w) (parent q) = true). apply Hmono.
  destruct (decide (p = q)) as [->|Hne]; [done|].
  rewrite lookup_insert_ne in Hq by done. by apply (Hwf q n).
Qed.

Lemma makedirs_rev_cons c rhead dot w :
  makedirs_rev (c :: rhead) true dot w =
  if negb (bool_decide (rhead = [])) && negb (path_exists w (rev rhead))
  then match makedirs_rev rhead true false w with
       | (Ok _, w1) => mkdir_exist_ok (rev (c :: rhead)) true dot w1
       | (Raise e, w1) =>
           if bool_decide (e = OSError EEXIST)
           then mkdir_exist_ok (rev (c :: rhead)) true dot w1
           else (Raise e, w1)
       end
  else mkdir_exist_ok (rev (c :: rhead)) true dot w.
Proof.
  cbn [makedirs_rev]. rewrite bind_run. unfold gets at 1. cbv beta iota.
  rewrite bind_run.
  destruct (negb (bool_decide (rhead = [])) && negb (path_exists w (rev rhead))); [|done].
  unfold catch. destruct (makedirs_rev rhead true false w) as [[[]|e] w1]; [done|].
  by destruct (bool_decide (e = OSError EEXIST)).
Qed.

Lemma along_cons c rp w q : along rp w q -> along (c :: rp) w q.
Proof.
  intros (He & rs & Hrs & ->). split; [done|].
  exists rs. split; [|done]. by apply suffix_cons_r.
Qed.

Lemma makedirs_last rp dot w made1 :
  Forall (along rp w) made1 ->
  (well_formed w -> well_formed (mkdirs_of made1 w)) ->
  exists made,
    (mkdir_exist_ok (rev rp) true dot (mkdirs_of made1 w)).2 = mkdirs_of made w /\
    Forall (along rp w) made /\
    (well_formed w -> well_formed (mkdirs_of made w)) /\
    match (mkdir_exist_ok (rev rp) true dot (mkdirs_of made1 w)).1 with
    | Ok _ => path_isdir (mkdirs_of made w) (rev rp) = true
    | Raise e => exists err, e = OSError err
    end.
Proof.
  intros Hall Hwf.
  destruct (mkdir_exist_ok_cases (rev rp) dot (mkdirs_of made1 w))
    as [(He & Hp & _ & ->)|[(Hd & ->)|(Hd & err & ->)]].
  - exists (made1 ++ [rev rp]). rewrite mkdirs_of_app. split; [done|].
    split; [|split].
    + apply Forall_app. split; [done|]. constructor; [|done]. split; [|by exists rp].
      revert He. unfold path_exists. rewrite stat_mkdirs_of. unfold stat.
      destruct (is_root _); [done|]. by destruct (bool_decide _).
    + intros Hw. apply well_formed_mkdir; auto.
    + unfold path_isdir. rewrite stat_mkdirs_of.
      destruct (is_root _); [done|].
      rewrite bool_decide_eq_true_2; [done|]. by apply list_elem_of_singleton.
  - exists made1. by repeat split.
  - exists made1. repeat split; try done. by exists err.
Qed.

(** What [makedirs] leaves behind, whatever its outcome: some directories
    made where nothing was, one after the other, each inside a directory,
    all of them along the path; nothing else is touched.  It can only raise
    an [OSError], and when it returns the path is a directory. *)
Lemma makedirs_rev_spec rp dot w :
  exists made,
    (makedirs_rev rp true dot w).2 = mkdirs_of made w /\
    Forall (along rp w) made /\
    (well_formed w -> well_formed (mkdirs_of made w)) /\
    match (makedirs_rev rp true dot w).1 with
    | Ok _ => path_isdir (mkdirs_of made w) (rev rp) = true
    | Raise e => exists err, e = OSError err
    end.
Proof.
  revert dot w. induction rp as [|c rhead IH]; intros dot w.
  { cbn [makedirs_rev]. by apply (makedirs_last [] dot w []). }
  rewrite makedirs_rev_cons.
  destruct (negb (bool_decide (rhead = [])) && negb (path_exists w (rev rhead))) eqn:Hrec;
    [|by apply (makedirs_last (c :: rhead) dot w [])].
  destruct (IH false w) as (made1 & Hw1 & Hall1 & Hwf1 & Hres1).
  assert (Hall : Forall (along (c :: rhead) w) made1).
  { eapply Forall_impl; [exact Hall1|]. intros q. apply along_cons. }
  destruct (makedirs_rev rhead true false w) as [[[]|e] w1] eqn:Hm;
    simpl in Hw1, Hres1; subst w1.
  - by apply makedirs_last.
  - destruct (bool_decide (e = OSError EEXIST)); [by apply makedirs_last|].
    exists made1. by repeat split.
Qed.

(** *** When [makedirs] goes through, and what it makes *)

Lemma prefixes_snoc p c : prefixes (p ++ [c]) = prefixes p ++ [p ++ [c]].
Proof.
  unfold prefixes. rewrite length_app. cbn [length].
  rewrite seq_app, fmap_app. cbn [seq fmap list_fmap]. f_equal.
  - apply list_fmap_ext. intros i n Hn. apply lookup_seq in Hn as [-> Hi].
    rewrite take_app_le by lia. done.
  - replace (1 + length p)%nat with (length (p ++ [c])) by (rewrite length_app; simpl; lia).
    by rewrite take_ge by lia.
Qed.

Lemma elem_of_prefixes p q : q ∈ prefixes p <-> q <> [] /\ q `prefix_of` p.
Proof.
  induction p as [|c p IH] using rev_ind.
  { split; [by intros ?%elem_of_nil|]. intros [Hne Hq]. by apply prefix_nil_inv in Hq. }
  rewrite prefixes_snoc, elem_of_app, IH, list_elem_of_singleton. split.
  - intros [[Hne Hq]| ->].
    + split; [done|]. by apply prefix_app_r.
    + split; [by destruct p|done].
  - intros [Hne [k Hk]].
    destruct k as [|d k _] using rev_ind.
    + right. by rewrite app_nil_r in Hk.
    + left. split; [done|]. rewrite app_assoc in Hk.
      apply app_inj_tail in Hk as [-> _]. by exists k.
Qed.

Lemma missing_snoc w p c :
  missing w (p ++ [c]) =
  missing w p ++ (if path_exists w (p ++ [c]) then [] else [p ++ [c]]).
Proof.
  unfold missing. rewrite prefixes_snoc, List.filter_app. f_equal.
  cbn [List.filter]. by destruct (path_exists w (p ++ [c])).
Qed.

Lemma parent_snoc p f : parent (p ++ [f]) = p.
Proof. unfold parent. apply removelast_last. Qed.

(** In a tree, what exists lies in a directory, and so does everything on
    the way to it. *)
Lemma well_formed_parent w p :
  well_formed w -> path_exists w p = true -> path_isdir w (parent p) = true.
Proof.
  intros Hwf. unfold path_exists, stat.
  destruct (is_root p) eqn:Hroot.
  - intros _. by apply path_isdir_root, is_root_parent.
  - destruct (nodes w !! p) as [n|] eqn:Hn; [|done]. intros _. by apply (Hwf p n).
Qed.

Lemma well_formed_above w p q :
  well_formed w -> path_exists w p = true -> q `prefix_of` p -> path_isdir w q = true \/ q = p.
Proof.
  intros Hwf. revert q. induction p as [|c p IH] using rev_ind; intros q He Hq.
  { apply prefix_nil_inv in Hq. by right. }
  destruct Hq as [k Hk]. destruct k as [|d k _] using rev_ind.
  { right. by rewrite app_nil_r in Hk. }
  left. rewrite app_assoc in Hk. apply app_inj_tail in Hk as [-> _].
  pose proof (well_formed_parent w _ Hwf He) as Hp. rewrite parent_snoc in Hp.
  destruct (IH q (path_isdir_exists _ _ Hp) ltac:(by exists k)) as [|Heq]; [done|].
  by rewrite <- Heq in Hp.
Qed.

Lemma missing_exists w p :
  well_formed w -> path_exists w p = true -> missing w p = [].
Proof.
  intros Hwf He. unfold missing.
  induction (prefixes p) as [|q qs IH] eqn:Hqs using rev_ind; [done|].
  assert (Hall : Forall (fun q => path_exists w q = true) (qs ++ [q])).
  { rewrite <- Hqs. apply Forall_forall. intros q' [_ Hq']%elem_of_prefixes.
    destruct (well_formed_above w p q' Hwf He Hq') as [Hd| ->]; [|done].
    by apply path_isdir_exists. }
  clear -Hall. induction (qs ++ [q]) as [|a l IH]; [done|].
  apply Forall_cons in Hall as [Ha Hall]. cbn [List.filter]. rewrite Ha. by apply IH.
Qed.

Lemma not_elem_of_missing w p c : p ++ [c] ∉ missing w p.
Proof.
  unfold missing. intros Hin%list_elem_of_In. apply filter_In in Hin as [Hin _].
  apply list_elem_of_In, elem_of_prefixes in Hin as [_ Hpre].
  apply prefix_length in Hpre. rewrite length_app in Hpre. simpl in Hpre. lia.
Qed.

(** Where nothing that exists along the path is a regular file and the
    environment refuses none of its directories, [makedirs] goes through
    and makes the directories that are missing, parents first, and no
    other. *)
Lemma makedirs_rev_ok p dot w :
  well_formed w ->
  (forall q, q `prefix_of` p ->
     faults w !! q = None /\ (path_exists w q = true -> path_isdir w q = true)) ->
  makedirs_rev (rev p) true dot w = (Ok tt, mkdirs_of (missing w p) w).
Proof.
  intros Hwf. revert dot. induction p as [|c p IH] using rev_ind; intros dot Hclear.
  { cbn [rev makedirs_rev].
    destruct (mkdir_exist_ok_cases [] dot w) as [(He & _)|[(_ & ->)|(Hd & _)]]; done. }
  rewrite rev_app_distr. cbn [rev app]. rewrite makedirs_rev_cons.
  cbn [rev]. rewrite rev_involutive. rewrite missing_snoc.
  assert (Hsub : forall q, q `prefix_of` p ->
            faults w !! q = None /\ (path_exists w q = true -> path_isdir w q = true)).
  { intros q Hq. apply Hclear. by apply prefix_app_r. }
  destruct (Hclear (p ++ [c]) ltac:(done)) as [Hf Hd].
  destruct (negb (bool_decide (rev p = [])) && negb (path_exists w p)) eqn:Hrec.
  - apply andb_prop in Hrec as [Hnil Hex]. apply negb_true_iff in Hex.
    assert (Hnew : path_exists w (p ++ [c]) = false).
    { destruct (path_exists w (p ++ [c])) eqn:He; [|done].
      apply (well_formed_parent w _ Hwf) in He. rewrite parent_snoc in He.
      apply path_isdir_exists in He. congruence. }
    rewrite Hnew, (IH false Hsub).
    assert (Hin : p ∈ missing w p).
    { unfold missing. apply list_elem_of_In, filter_In. split.
      - apply list_elem_of_In, elem_of_prefixes. split; [|done].
        intros ->. by rewrite bool_decide_eq_true_2 in Hnil.
      - by rewrite Hex. }
    destruct (mkdir_exist_ok_cases (p ++ [c]) dot (mkdirs_of (missing w p) w))
      as [(_ & _ & _ & ->)|[(Hd' & _)|(_ & err & Herr)]].
    + by rewrite mkdirs_of_app.
    + revert Hd'. unfold path_isdir. rewrite stat_mkdirs_of.
      revert Hnew. unfold path_exists, stat.
      destruct (is_root (p ++ [c])); [done|].
      rewrite bool_decide_eq_false_2 by apply not_elem_of_missing.
      by destruct (nodes w !! (p ++ [c])).
    + exfalso. revert Herr. unfold mkdir_exist_ok, catch, mkdir.
      assert (He1 : path_exists (mkdirs_of (missing w p) w) (p ++ [c]) = false).
      { revert Hnew. unfold path_exists. rewrite stat_mkdirs_of. unfold stat.
        destruct (is_root (p ++ [c])); [done|].
        by rewrite bool_decide_eq_false_2 by apply not_elem_of_missing. }
      assert (Hp1 : check_parent (mkdirs_of (missing w p) w) (p ++ [c]) = None).
      { apply check_parent_isdir. rewrite parent_snoc. unfold path_isdir.
        rewrite stat_mkdirs_of. destruct (is_root p); [done|].
        by rewrite bool_decide_eq_true_2. }
      by rewrite He1, Hp1, mkdirs_of_faults, Hf.
  - assert (Hpar : path_isdir w p = true).
    { apply andb_false_iff in Hrec as [Hnil|Hex].
      - apply negb_false_iff, bool_decide_eq_true in Hnil.
        apply (f_equal (@rev string)) in Hnil. rewrite rev_involutive in Hnil.
        by subst p.
      - apply negb_false_iff in Hex. by apply Hsub. }
    rewrite (missing_exists w p Hwf (path_isdir_exists _ _ Hpar)). cbn [app].
    unfold mkdir_exist_ok, catch, mkdir.
    destruct (path_exists w (p ++ [c])) eqn:He.
    + rewrite bind_run. unfold gets. by rewrite (Hd eq_refl).
    + assert (Hcp' : check_parent w (p ++ [c]) = None).
      { apply check_parent_isdir. by rewrite parent_snoc. }
      by rewrite Hcp', Hf.
Qed.

End Makedirs.

(* ===================================================================== *)
(** ** Where the files of the script lie *)
(* ===================================================================== *)

Module Paths.
Import OS Script Outcome Tree Steps Makedirs.

Lemma split_sep_not_nil s : split_sep s <> [].
Proof.
  destruct s as [|c s]; [done|]. simpl.
  destruct (is_sep c); [done|]. by destruct (split_sep s).
Qed.

Lemma split_sep_app a b :
  split_sep (a +:+ "/" +:+ b) = split_sep a ++ split_sep b.
Proof.
  induction a as [|c a IH]; [done|].
  change (String c a +:+ "/" +:+ b) with (String c (a +:+ "/" +:+ b)).
  cbn [split_sep]. rewrite IH. destruct (is_sep c); [done|].
  pose proof (split_sep_not_nil a). by destruct (split_sep a).
Qed.

Lemma split_sep_free f : sep_free f = true -> split_sep f = [f].
Proof.
  induction f as [|c f IH]; [done|]. simpl.
  intros H. apply andb_prop in H as [Hc Hf].
  apply negb_true_iff in Hc. by rewrite Hc, IH.
Qed.

Lemma endswith_sep_app a : endswith_sep a = true -> exists a', a = a' +:+ "/".
Proof.
  induction a as [|c a IH]; [done|]. simpl.
  destruct a as [|c' a].
  - unfold is_sep. intros Hc. apply Ascii.eqb_eq in Hc as ->. by exists "".
  - intros H. destruct (IH H) as [a' ->]. by exists (String c a').
Qed.

Lemma startswith_sep_app a b : a <> "" -> startswith_sep (a +:+ b) = startswith_sep a.
Proof. by destruct a. Qed.

Lemma sep_free_no_start f : sep_free f = true -> startswith_sep f = false.
Proof.
  destruct f as [|c f]; [done|]. simpl. intros H.
  apply andb_prop in H as [Hc _]. by apply negb_true_iff.
Qed.

Lemma append_cons c (a b : string) : String c a +:+ b = String c (a +:+ b).
Proof. reflexivity. Qed.

Lemma append_nil_r (s : string) : s +:+ "" = s.
Proof. induction s as [|c s IH]; [done|]. by rewrite append_cons, IH. Qed.

Lemma append_assoc (a b c : string) : (a +:+ b) +:+ c = a +:+ (b +:+ c).
Proof. induction a as [|x a IH]; [done|]. by rewrite !append_cons, IH. Qed.

Lemma append_eq_nil (a b : string) : a +:+ b = "" -> a = "".
Proof. by destruct a. Qed.

(** A file name joined to a directory resolves to the directory's path
    followed by the name. *)
Lemma resolve_join dir f :
  simple f -> resolve (path_join dir f) = Some (dir_key dir ++ [f]).
Proof.
  intros [Hfree Hname]. unfold path_join.
  rewrite (sep_free_no_start f Hfree).
  assert (Hf : f <> "") by (intros ->; done).
  destruct (String.eqb_spec dir "") as [->|Hdir].
  { change (if true || endswith_sep "" then "" +:+ f else "" +:+ "/" +:+ f) with f.
    unfold resolve, dir_key.
    destruct (String.eqb_spec f ""); [done|].
    rewrite (sep_free_no_start f Hfree), split_sep_free by done.
    simpl. by rewrite Hname. }
  simpl. destruct (endswith_sep dir) eqn:Hend.
  - destruct (endswith_sep_app dir Hend) as [d ->].
    unfold resolve, dir_key.
    destruct (String.eqb_spec ((d +:+ "/") +:+ f) "") as [He|_].
    { by apply append_eq_nil in He. }
    rewrite startswith_sep_app by done.
    rewrite append_assoc. rewrite split_sep_app.
    pose proof (split_sep_app d "") as Hd.
    change ("/" +:+ "") with "/" in Hd. rewrite Hd.
    rewrite (split_sep_free f) by done.
    rewrite !List.filter_app. simpl. by rewrite Hname, app_nil_r, app_assoc.
  - unfold resolve, dir_key.
    destruct (String.eqb_spec (dir +:+ "/" +:+ f) "") as [He|_].
    { by apply append_eq_nil in He. }
    rewrite startswith_sep_app by done.
    rewrite split_sep_app, (split_sep_free f) by done.
    rewrite List.filter_app. simpl. by rewrite Hname, app_assoc.
Qed.

Lemma resolve_dir dir : dir <> "" -> resolve dir = Some (dir_key dir).
Proof. unfold resolve, dir_key. by destruct (String.eqb_spec dir ""). Qed.

Lemma resolve_dir_inv dir p : resolve dir = Some p -> p = dir_key dir.
Proof.
  unfold resolve, dir_key. destruct (String.eqb dir ""); [done|]. by intros [= <-].
Qed.

(** *** The file names of the script *)

Lemma sep_free_app a b : sep_free (a +:+ b) = sep_free a && sep_free b.
Proof.
  induction a as [|c a IH]; [done|]. rewrite append_cons. cbn [sep_free].
  rewrite IH. by rewrite andb_assoc.
Qed.

Lemma pretty_N_go_sep_free x s :
  sep_free s = true -> sep_free (pretty_N_go x s) = true.
Proof.
  revert s. induction (N.lt_wf_0 x) as [x _ IH]; intros s Hs.
  destruct (decide (x = 0)%N) as [->|Hx]; [by rewrite pretty_N_go_0|].
  rewrite pretty_N_go_step by lia. apply IH.
  - apply N.div_lt; lia.
  - simpl. rewrite Hs, andb_true_r. unfold pretty_N_char.
    by repeat case_match.
Qed.

Lemma pretty_Z_sep_free (z : Z) : sep_free (pretty z) = true.
Proof.
  assert (HN : forall n : N, sep_free (pretty n) = true).
  { intros n. unfold pretty, pretty_N. case_decide; [done|].
    by apply pretty_N_go_sep_free. }
  destruct z as [|p|p]; [done|apply (HN (Npos p))|].
  unfold pretty, pretty_Z. rewrite sep_free_app. simpl. apply (HN (Npos p)).
Qed.

Lemma append_length (a b : string) :
  String.length (a +:+ b) = (String.length a + String.length b)%nat.
Proof.
  induction a as [|c a IH]; [done|]. rewrite append_cons. cbn [String.length].
  by rewrite IH.
Qed.

Lemma filename_simple label size :
  sep_free label = true -> simple (filename_of label size).
Proof.
  intros Hl. unfold filename_of. split.
  - rewrite !sep_free_app, Hl, pretty_Z_sep_free. done.
  - unfold is_name.
    assert (Hlen : (4 <= String.length (label +:+ "_" +:+ pretty size +:+ ".bin"))%nat).
    { rewrite !append_length. simpl. lia. }
    destruct (String.eqb_spec (label +:+ "_" +:+ pretty size +:+ ".bin") "") as [He|_].
    { rewrite He in Hlen. simpl in Hlen. lia. }
    destruct (String.eqb_spec (label +:+ "_" +:+ pretty size +:+ ".bin") ".") as [He|_].
    { rewrite He in Hlen. simpl in Hlen. lia. }
    done.
Qed.



Lemma labels_sep_free label : label ∈ LABELS -> sep_free label = true.
Proof.
  unfold LABELS. intros H.
  apply elem_of_cons in H as [->|H]; [done|]. by apply list_elem_of_singleton in H as ->.
Qed.

(** The resolved path of the file of a pair, for the labels of the script. *)
Lemma key_of_filepath dir label size :
  sep_free label = true ->
  resolve (filepath_of dir label size) = Some (dir_key dir ++ [filename_of label size]) /\
  key_of (filepath_of dir label size) = dir_key dir ++ [filename_of label size].
Proof.
  intros Hl. unfold key_of, filepath_of.
  by rewrite (resolve_join dir _ (filename_simple label size Hl)).
Qed.


End Paths.

(* ===================================================================== *)
(** ** A whole run *)
(* ===================================================================== *)

Module Whole.
Import OS Syscalls Numpy NumpyFacts Script Outcome Tree Loops Steps Run Makedirs Paths.

Lemma effects_app w w' evs : trace w' = trace w ++ evs -> effects w w' = evs.
Proof. unfold effects. intros ->. by rewrite drop_app_length. Qed.

(** *** [makedirs] on the path as the script gives it *)

Lemma makedirs_spec dir w :
  exists made,
    (makedirs dir true w).2 = mkdirs_of made w /\
    Forall (along (rev (dir_key dir)) w) made /\
    (well_formed w -> well_formed (mkdirs_of made w)) /\
    match (makedirs dir true w).1 with
    | Ok _ => dir <> "" /\ path_isdir (mkdirs_of made w) (dir_key dir) = true
    | Raise e => exists err, e = OSError err
    end.
Proof.
  unfold makedirs. destruct (resolve dir) as [p|] eqn:Hres.
  - pose proof (resolve_dir_inv _ _ Hres) as ->.
    destruct (makedirs_rev_spec (rev (dir_key dir)) (ends_in_dot dir) w)
      as (made & H1 & H2 & H3 & H4).
    exists made. repeat split; try done.
    destruct (makedirs_rev _ true _ w).1; [|done].
    rewrite rev_involutive in H4. split; [|done].
    intros ->. done.
  - exists []. repeat split; try done. by exists ENOENT.
Qed.

(** When the directory is there already nothing is done. *)
Lemma makedirs_exists dir w :
  well_formed w -> dir <> "" -> path_isdir w (dir_key dir) = true ->
  makedirs dir true w = (Ok tt, w).
Proof.
  intros Hwf Hne Hd. unfold makedirs. rewrite (resolve_dir dir Hne).
  rewrite <- (rev_involutive (dir_key dir)) in Hd.
  destruct (rev (dir_key dir)) as [|c rhead].
  - cbn [makedirs_rev].
    destruct (mkdir_exist_ok_cases [] (ends_in_dot dir) w)
      as [(He & _)|[(_ & ->)|(Hd' & _)]]; done.
  - rewrite makedirs_rev_cons.
    assert (Hhead : path_exists w (rev rhead) = true).
    { apply path_isdir_exists. rewrite <- (parent_snoc (rev rhead) c).
      apply well_formed_parent; [done|]. by apply path_isdir_exists. }
    rewrite Hhead, andb_false_r.
    destruct (mkdir_exist_ok_cases (rev (c :: rhead)) (ends_in_dot dir) w)
      as [(He & _)|[(_ & ->)|(Hd' & _)]]; [|done|congruence].
    apply path_isdir_exists in Hd. congruence.
Qed.

(** Where nothing stands in its way it makes the missing directories,
    parents first. *)
Lemma makedirs_ok dir w :
  well_formed w -> dir <> "" ->
  (forall q, q `prefix_of` dir_key dir ->
     faults w !! q = None /\ (path_exists w q = true -> path_isdir w q = true)) ->
  makedirs dir true w = (Ok tt, mkdirs_of (missing w (dir_key dir)) w).
Proof.
  intros Hwf Hne Hclear. unfold makedirs. rewrite (resolve_dir dir Hne).
  by apply makedirs_rev_ok.
Qed.

(** Where the environment refuses the directory, which is not there but
    whose parent is, it raises the error of the refusal and does
    nothing. *)
Lemma makedirs_refused dir w f :
  dir <> "" ->
  path_exists w (dir_key dir) = false ->
  path_isdir w (parent (dir_key dir)) = true ->
  faults w !! dir_key dir = Some f ->
  makedirs dir true w = (Raise (OSError (fault_errno f)), w).
Proof.
  intros Hne He Hp Hf. unfold makedirs. rewrite (resolve_dir dir Hne).
  destruct (dir_key dir) as [|c p _] using rev_ind; [done|].
  rewrite parent_snoc in Hp.
  rewrite rev_app_distr. cbn [rev app]. rewrite makedirs_rev_cons.
  cbn [rev]. rewrite rev_involutive.
  rewrite (path_isdir_exists _ _ Hp), andb_false_r.
  apply mkdir_refused; [done| |done]. by rewrite parent_snoc.
Qed.

(** *** The world after complete iterations *)

Section Commit.
Context {G : Type} `{!BitGenerator G}.
Variable native : Int32.byteorder.
Variable output_dir : string.

Lemma commit_snoc pl pc w : commit (pl ++ [pc]) w = saved pc.1 pc.2 (commit pl w).
Proof. unfold commit. by rewrite foldl_snoc. Qed.

Lemma commit_faults pl w : faults (commit pl w) = faults w.
Proof.
  induction pl as [|pc pl IH] using rev_ind; [done|]. by rewrite commit_snoc.
Qed.

Lemma commit_console pl w :
  console (commit pl w) = console w /\ at_exit (commit pl w) = at_exit w.
Proof.
  induction pl as [|pc pl IH] using rev_ind; [done|]. by rewrite commit_snoc.
Qed.

Lemma commit_trace pl w : trace (commit pl w) = trace w ++ events_of pl.
Proof.
  unfold events_of.
  induction pl as [|pc pl IH] using rev_ind; [by rewrite app_nil_r|].
  rewrite commit_snoc. simpl. rewrite IH, bind_app. simpl.
  by rewrite <- !app_assoc.
Qed.

Lemma last_write_snoc pl pc k :
  last_write (pl ++ [pc]) k =
  if bool_decide (key_of pc.1 = k) then Some pc.2 else last_write pl k.
Proof. unfold last_write. by rewrite foldl_snoc. Qed.

(** An entry holds what the device stored of what was last written to it,
    or what it held before. *)
Lemma commit_nodes pl w k :
  nodes (commit pl w) !! k =
  match last_write pl k with
  | Some c => Some (File (stored w k c))
  | None => nodes w !! k
  end.
Proof.
  induction pl as [|pc pl IH] using rev_ind; [done|].
  rewrite commit_snoc, last_write_snoc. simpl.
  case_bool_decide as Hk.
  - subst k. rewrite lookup_insert_eq. unfold stored. by rewrite commit_faults.
  - by rewrite lookup_insert_ne.
Qed.

Lemma last_write_None pl k :
  last_write pl k = None <-> k ∉ key_of <$> pl.*1.
Proof.
  induction pl as [|pc pl IH] using rev_ind.
  { split; [intros _; apply not_elem_of_nil|done]. }
  rewrite last_write_snoc, !fmap_app, not_elem_of_app. simpl.
  case_bool_decide as Hk.
  - split; [done|]. intros [_ Hn]. destruct Hn. by apply list_elem_of_singleton.
  - rewrite IH. split; [|by intros [? _]]. intros Hn. split; [done|].
    by intros ?%list_elem_of_singleton.
Qed.

Lemma last_write_Some pl k c :
  last_write pl k = Some c -> exists path, (path, c) ∈ pl /\ key_of path = k.
Proof.
  induction pl as [|[path c'] pl IH] using rev_ind; [done|].
  rewrite last_write_snoc. simpl. case_bool_decide as Hk.
  - intros [= <-]. exists path. split; [|done].
    apply elem_of_app. right. by apply list_elem_of_singleton.
  - intros (path' & Hin & Hk')%IH. exists path'. split; [|done].
    apply elem_of_app. by left.
Qed.

Lemma writes_events_of pl : writes (events_of pl) = pl.
Proof.
  unfold writes, events_of. induction pl as [|[path c] pl IH]; [done|].
  cbn. f_equal. apply IH.
Qed.

Lemma writes_app evs1 evs2 : writes (evs1 ++ evs2) = writes evs1 ++ writes evs2.
Proof. unfold writes. apply omap_app. Qed.

Lemma writes_mkdirs made : writes (EvMkdir <$> made) = [].
Proof. unfold writes. by induction made. Qed.

Lemma stdout_trace_app w w' evs :
  trace w' = trace w ++ evs ->
  stdout w' = stdout w ++
    omap (fun ev => match ev with EvPrint line => Some line | _ => None end) evs.
Proof. unfold stdout. intros ->. apply omap_app. Qed.

Lemma prints_events_of pl :
  omap (fun ev => match ev with EvPrint line => Some line | _ => None end) (events_of pl)
  = (fun pc => "Saved " +:+ pc.1) <$> pl.
Proof.
  unfold events_of. induction pl as [|[path c] pl IH]; [done|].
  cbn. f_equal. apply IH.
Qed.

Lemma prints_mkdirs made :
  omap (fun ev => match ev with EvPrint line => Some line | _ => None end)
    (EvMkdir <$> made) = [].
Proof. by induction made. Qed.

(** The paths of the plan are the paths of the pairs, in order. *)
Lemma plan_paths ps (g : G) :
  (plan native output_dir ps g).*1 = (fun p => filepath_of output_dir p.2 p.1) <$> ps.
Proof.
  revert g. induction ps as [|[size label] ps IH]; intros g; [done|].
  simpl. by rewrite IH.
Qed.

Lemma plan_lookup ps (g : G) i path content :
  plan native output_dir ps g !! i = Some (path, content) ->
  exists size label,
    ps !! i = Some (size, label) /\
    path = filepath_of output_dir label size /\
    content = content_of native size (advance_all (take i ps) g).
Proof.
  revert g i. induction ps as [|[size label] ps IH]; intros g i; [done|].
  destruct i as [|i]; simpl.
  - intros [= <- <-]. by exists size, label.
  - intros H. apply IH in H as (size' & label' & Hp & -> & ->). by exists size', label'.
Qed.

(** A tree stays one. *)
Lemma well_formed_written w path content n :
  can_write w path n = true -> well_formed w -> well_formed (written path content w).
Proof.
  intros Hc Hwf q m. simpl. intros Hq.
  change (path_isdir (set_node (key_of path) (File (stored w (key_of path) content)) w)
            (parent q) = true).
  rewrite path_isdir_set_file by by eapply can_write_not_dir.
  destruct (decide (key_of path = q)) as [<-|Hne].
  - by eapply can_write_parent.
  - rewrite lookup_insert_ne in Hq by done. by apply (Hwf q m).
Qed.

Lemma well_formed_saved w path content n :
  can_write w path n = true -> well_formed w -> well_formed (saved path content w).
Proof.
  intros Hc Hwf. pose proof (well_formed_written w path content n Hc Hwf) as Hw.
  intros q m Hq. exact (Hw q m Hq).
Qed.

Lemma well_formed_commit ps (g : G) w :
  Forall (ok_pair output_dir w) ps -> well_formed w ->
  well_formed (commit (plan native output_dir ps g) w).
Proof.
  revert g w. induction ps as [|[size label] ps IH]; intros g w Hall Hwf; [done|].
  apply Forall_cons in Hall as [(_ & _ & Hp) Hall]. simpl in Hp.
  simpl plan. rewrite commit_cons. apply IH.
  - eapply Forall_impl; [exact Hall|]. intros p.
    apply ok_pair_same_dirs. by eapply same_dirs_saved.
  - by eapply well_formed_saved.
Qed.

End Commit.

(** *** The script from start to end *)

Section Generate.
Context {G : Type} `{!BitGenerator G}.
Variable native : Int32.byteorder.
Implicit Types (labels : list string) (sizes : list Z) (dir : string) (seed : Z).

Local Abbreviation plan_of := (Outcome.plan_of native).

Lemma generate_run labels sizes dir seed w :
  generate native labels sizes dir seed w =
  match makedirs dir true (set_pending [] w) with
  | (Ok _, w0) =>
      if seed <? 0 then (Raise ValueError, w0)
      else match loop native dir (pairs labels sizes) (seed_state seed) w0 with
           | (Ok _, w') => (Ok tt, w')
           | (Raise e, w') => (Raise e, w')
           end
  | (Raise e, w0) => (Raise e, w0)
  end.
Proof.
  unfold generate. rewrite bind_run. unfold startup, modify at 1. cbv beta iota.
  rewrite bind_run.
  destruct (makedirs dir true (set_pending [] w)) as [[[]|e] w0]; [|done].
  rewrite bind_run. unfold lift, default_rng.
  destruct (seed <? 0); [done|].
  rewrite bind_run, for_each_pairs. unfold loop.
  by destruct (for_each _ _ _ w0) as [[g'|e] w'].
Qed.

(** A run that ends well: the directory was made or found, every
    iteration went through, the console took every line, and the world is
    the one with the plan carried out. *)
Lemma generate_ok labels sizes dir seed w w' :
  generate native labels sizes dir seed w = (Ok tt, w') ->
  exists made,
    makedirs dir true (set_pending [] w) = (Ok tt, mkdirs_of made (set_pending [] w)) /\
    Forall (along (rev (dir_key dir)) w) made /\
    dir <> "" /\
    path_isdir (mkdirs_of made (set_pending [] w)) (dir_key dir) = true /\
    0 <= seed /\
    Forall (ok_pair dir (mkdirs_of made (set_pending [] w))) (pairs labels sizes) /\
    quiet (console w) [] (lines_of (plan_of labels sizes dir seed)) /\
    w' = commit (plan_of labels sizes dir seed) (mkdirs_of made (set_pending [] w)).
Proof.
  rewrite generate_run.
  destruct (makedirs_spec dir (set_pending [] w)) as (made & Hw0 & Hmade & _ & Hres).
  destruct (makedirs dir true (set_pending [] w)) as [[[]|e] w0]; [|done].
  simpl in Hw0, Hres. subst w0.
  destruct (Z.ltb_spec seed 0) as [|Hseed]; [done|].
  destruct (loop native dir (pairs labels sizes) (seed_state seed)
              (mkdirs_of made (set_pending [] w)))
    as [[g'|e] w1] eqn:Hloop; [|done].
  intros [= <-]. exists made. destruct Hres as [Hne Hd].
  destruct (loop_ok_inv _ _ _ _ _ _ _ Hloop) as [Hall Hq].
  rewrite (loop_ok native dir _ (seed_state seed) _ Hall Hq) in Hloop.
  injection Hloop as _ <-.
  rewrite mkdirs_of_console, mkdirs_of_pending in Hq.
  by repeat split.
Qed.

(** The other way round. *)
Lemma generate_succeeds labels sizes dir seed w w0 :
  makedirs dir true (set_pending [] w) = (Ok tt, w0) ->
  0 <= seed ->
  Forall (ok_pair dir w0) (pairs labels sizes) ->
  quiet (console w) [] (lines_of (plan_of labels sizes dir seed)) ->
  generate native labels sizes dir seed w =
    (Ok tt, commit (plan_of labels sizes dir seed) w0).
Proof.
  intros Hm Hseed Hall Hq. rewrite generate_run, Hm.
  destruct (Z.ltb_spec seed 0); [lia|].
  destruct (makedirs_spec dir (set_pending [] w)) as (made & Hw0 & _).
  rewrite Hm in Hw0. simpl in Hw0.
  rewrite (loop_ok native dir _ (seed_state seed) w0 Hall); [done|].
  rewrite Hw0, mkdirs_of_console, mkdirs_of_pending. exact Hq.
Qed.

(** A run that raises: [makedirs] raised, or the seed was refused, or an
    iteration raised after the iterations before it were complete. *)
Lemma generate_raise_cases labels sizes dir seed w e w' :
  generate native labels sizes dir seed w = (Raise e, w') ->
  exists made,
    Forall (along (rev (dir_key dir)) w) made /\
    ((makedirs dir true (set_pending [] w) = (Raise e, w') /\
      w' = mkdirs_of made (set_pending [] w) /\
      exists err, e = OSError err) \/
     (makedirs dir true (set_pending [] w) = (Ok tt, w') /\
      w' = mkdirs_of made (set_pending [] w) /\
      seed < 0 /\ e = ValueError) \/
     (makedirs dir true (set_pending [] w) = (Ok tt, mkdirs_of made (set_pending [] w)) /\
      0 <= seed /\
      exists done p rest,
        pairs labels sizes = done ++ p :: rest /\
        Forall (ok_pair dir (mkdirs_of made (set_pending [] w))) done /\
        quiet (console w) [] (lines_of (plan native dir done (seed_state seed))) /\
        iteration native dir p.1 p.2 (advance_all done (seed_state seed))
          (commit (plan native dir done (seed_state seed))
             (mkdirs_of made (set_pending [] w)))
        = (Raise e, w'))).
Proof.
  rewrite generate_run. intros Hrun.
  destruct (makedirs_spec dir (set_pending [] w)) as (made & Hw0 & Hmade & _ & Hres).
  exists made. split; [done|].
  destruct (makedirs dir true (set_pending [] w)) as [[[]|e0] w0];
    simpl in Hw0, Hres; subst w0.
  - destruct (seed <? 0) eqn:Hs.
    { injection Hrun as <- <-. right. left. repeat split; try done. lia. }
    destruct (loop native dir (pairs labels sizes) (seed_state seed)
                (mkdirs_of made (set_pending [] w)))
      as [[g'|e1] w1] eqn:Hloop; [done|].
    injection Hrun as <- <-. right. right. split; [done|]. split; [lia|].
    apply loop_raise in Hloop as (done & p & rest & Hps & Hall & Hq & Hit).
    rewrite mkdirs_of_console, mkdirs_of_pending in Hq.
    by exists done, p, rest.
  - injection Hrun as <- <-. left. by repeat split.
Qed.


End Generate.

End Whole.

(* ===================================================================== *)
(** ** Properties of the script *)
(* ===================================================================== *)

Module Properties.
Import OS Syscalls Numpy NumpyFacts Script Outcome Tree Worlds Loops Steps Run Makedirs Paths Whole.

Lemma fresh_well_formed : well_formed fresh.
Proof. intros p n. unfold fresh. simpl. by rewrite lookup_empty. Qed.

Lemma stale_well_formed : well_formed stale.
Proof.
  intros p n. unfold stale. cbn [nodes].
  destruct (decide (p = ["matrices"])) as [->|Hdir]; [done|].
  destruct (decide (p = ["matrices"; "A_2.bin"])) as [->|Hfile]; [done|].
  cbn [machine log nodes]. rewrite lookup_insert_ne by done. by rewrite lookup_singleton_ne.
Qed.

Section Runs.
Context {G : Type} `{!BitGenerator G}.
Variable native : Int32.byteorder.
Implicit Types (labels : list string) (sizes : list Z) (dir : string) (seed : Z).

Lemma elem_of_pairs labels sizes size label :
  (size, label) ∈ pairs labels sizes <-> size ∈ sizes /\ label ∈ labels.
Proof.
  unfold pairs. rewrite list_elem_of_bind. split.
  - intros (s & Hin & Hs). apply list_elem_of_bind in Hin as (l & Hin & Hl).
    apply list_elem_of_singleton in Hin. by injection Hin as -> ->.
  - intros [Hs Hl]. exists size. split; [|done].
    apply list_elem_of_bind. exists label. split; [|done].
    by apply list_elem_of_singleton.
Qed.

(** What a successful run leaves: its effects, and the world. *)
Lemma generate_ok_effects labels sizes dir seed w w' :
  generate native labels sizes dir seed w = (Ok tt, w') ->
  exists made,
    Forall (along (rev (dir_key dir)) w) made /\
    path_isdir (mkdirs_of made (set_pending [] w)) (dir_key dir) = true /\
    Forall (ok_pair dir (mkdirs_of made (set_pending [] w))) (pairs labels sizes) /\
    w' = commit (plan_of native labels sizes dir seed) (mkdirs_of made (set_pending [] w)) /\
    effects w w' = (EvMkdir <$> made) ++ events_of (plan_of native labels sizes dir seed).
Proof.
  intros Hrun. apply generate_ok in Hrun as (made & _ & Hmade & _ & Hd & _ & Hall & _ & ->).
  exists made. repeat split; try done.
  apply effects_app. by rewrite commit_trace, mkdirs_of_trace, app_assoc.
Qed.

Lemma can_write_not_root w path n :
  can_write w path n = true -> is_root (key_of path) = false.
Proof.
  intros Hc. apply can_write_not_dir in Hc.
  destruct (is_root (key_of path)) eqn:Hr; [|done].
  by rewrite path_isdir_root in Hc.
Qed.

(** Reading a file of the plan back after the loop. *)
Lemma read_file_commit pl w path n :
  can_write w path n = true ->
  read_file (commit pl w) path =
  match last_write pl (key_of path) with
  | Some c => Some (stored w (key_of path) c)
  | None => read_file w path
  end.
Proof.
  intros Hc. unfold read_file. rewrite (can_write_resolve w path n Hc).
  unfold stat. rewrite (can_write_not_root w path n Hc), commit_nodes.
  by destruct (last_write pl (key_of path)).
Qed.

(** Every file of the plan can be written. *)
Lemma plan_can_write dir (ps : list (Z * string)) (g : G) w0 :
  Forall (ok_pair dir w0) ps ->
  Forall (fun pc => can_write w0 pc.1 (Z.of_nat (length pc.2)) = true)
    (plan native dir ps g).
Proof.
  intros Hall. revert g.
  induction Hall as [|[size label] ps (_ & _ & Hp) _ IH]; intros g; [constructor|].
  simpl. constructor; [|apply IH]. simpl. by rewrite content_of_length.
Qed.

Lemma read_file_planned labels sizes dir seed w0 size label :
  Forall (ok_pair dir w0) (pairs labels sizes) ->
  size ∈ sizes -> label ∈ labels ->
  exists path content,
    (path, content) ∈ plan_of native labels sizes dir seed /\
    key_of path = key_of (filepath_of dir label size) /\
    can_write w0 path (Z.of_nat (length content)) = true /\
    last_write (plan_of native labels sizes dir seed) (key_of (filepath_of dir label size))
      = Some content /\
    read_file (commit (plan_of native labels sizes dir seed) w0) (filepath_of dir label size)
      = Some (stored w0 (key_of (filepath_of dir label size)) content).
Proof.
  intros Hall Hs Hl.
  assert (Hin : (size, label) ∈ pairs labels sizes) by by apply elem_of_pairs.
  pose proof (plan_can_write dir _ (seed_state seed) w0 Hall) as Hcw.
  rewrite Forall_forall in Hall. destruct (Hall _ Hin) as (_ & _ & Hc). simpl in Hc.
  rewrite (read_file_commit _ _ _ _ Hc).
  destruct (last_write _ (key_of (filepath_of dir label size))) as [c|] eqn:Hlw.
  - destruct (last_write_Some _ _ _ Hlw) as (path & Hp & Hk).
    exists path, c. repeat split; try done.
    rewrite Forall_forall in Hcw. exact (Hcw _ Hp).
  - apply last_write_None in Hlw. destruct Hlw.
    unfold plan_of. rewrite plan_paths, <- list_fmap_compose.
    apply list_elem_of_fmap. by exists (size, label).
Qed.



(** *** The effects and the world of a run, whatever its outcome *)

(** The plan of the first pairs is the start of the plan. *)
Lemma plan_of_prefix labels sizes dir seed done p rest :
  pairs labels sizes = done ++ p :: rest ->
  plan native dir done (seed_state seed) `prefix_of` plan_of native labels sizes dir seed /\
  plan native dir (done ++ [p]) (seed_state seed)
    `prefix_of` plan_of native labels sizes dir seed /\
  plan_of native labels sizes dir seed !! length (plan native dir done (seed_state seed))
    = Some (filepath_of dir p.2 p.1,
            content_of native p.1 (advance_all done (seed_state seed))).
Proof.
  intros Hps. unfold plan_of. rewrite Hps. split; [|split].
  - rewrite plan_app. by eexists.
  - rewrite (cons_middle p done rest), app_assoc, (plan_app _ _ (done ++ [p])). by eexists.
  - rewrite plan_app, lookup_app_r by done. rewrite Nat.sub_diag. by destruct p.
Qed.

(** The world a run leaves, whatever its outcome: the directories made,
    the complete iterations, and at most one file cut short, which is the
    next file of the plan. *)
Lemma generate_world labels sizes dir seed w r w' :
  generate native labels sizes dir seed w = (r, w') ->
  exists made done,
    (makedirs dir true (set_pending [] w)).2 = mkdirs_of made (set_pending [] w) /\
    ((makedirs dir true (set_pending [] w)).1 = Ok tt \/
     (done = [] /\ w' = mkdirs_of made (set_pending [] w) /\ exists e, r = Raise e)) /\
    done `prefix_of` plan_of native labels sizes dir seed /\
    Forall (fun pc => can_write (mkdirs_of made (set_pending [] w)) pc.1
                        (Z.of_nat (length pc.2)) = true) done /\
    (w' = commit done (mkdirs_of made (set_pending [] w)) \/
     exists path content n,
       plan_of native labels sizes dir seed !! length done = Some (path, content) /\
       is_root (key_of path) = false /\
       path_isdir (mkdirs_of made (set_pending [] w)) (key_of path) = false /\
       w' = cut_short path (take n content)
              (commit done (mkdirs_of made (set_pending [] w)))) /\
    (forall u, r = Ok u -> done = plan_of native labels sizes dir seed /\
       w' = commit done (mkdirs_of made (set_pending [] w))).
Proof.
  pose proof (plan_can_write dir) as Hcw.
  destruct r as [[]|e]; intros Hrun.
  - apply generate_ok in Hrun as (made & Hm & _ & _ & _ & _ & Hall & _ & ->).
    exists made, (plan_of native labels sizes dir seed). rewrite Hm.
    split; [done|]. split; [by left|].
    split; [done|]. split; [by apply Hcw|]. split; [by left|done].
  - apply (generate_raise_cases native) in Hrun
      as (made & _ & [(Hm & -> & _)|[(Hm & -> & _)
                      |(Hm & _ & done & p & rest & Hps & Hall & _ & Hit)]]).
    { exists made, []. rewrite Hm. split; [done|]. split; [right; by eauto|].
      split; [apply prefix_nil|]. split; [constructor|]. split; [by left|done]. }
    { exists made, []. rewrite Hm. split; [done|]. split; [by left|].
      split; [apply prefix_nil|]. split; [constructor|]. split; [by left|done]. }
    set (g0 := seed_state seed) in *. set (w0 := mkdirs_of made (set_pending [] w)) in *.
    destruct (plan_of_prefix labels sizes dir seed done p rest Hps) as (Hpre & Hpre1 & Hnext).
    fold g0 in Hpre, Hpre1, Hnext.
    pose proof (commit_same_dirs native dir done g0 w0 Hall) as Hsame.
    destruct p as [size label].
    apply iteration_raise in Hit
      as [(_ & [(_ & ->)|(_ & _ & [(err & _ & ->)|(err & cap & Hd & _ & _ & _ & ->)])])
         |(Hok & err & _ & _ & ->)].
    + exists made, (plan native dir done g0). rewrite Hm.
      split; [done|]. split; [by left|]. split; [done|]. split; [by apply Hcw|].
      split; [by left|done].
    + exists made, (plan native dir done g0). rewrite Hm.
      split; [done|]. split; [by left|]. split; [done|]. split; [by apply Hcw|].
      split; [by left|done].
    + exists made, (plan native dir done g0). rewrite Hm.
      split; [done|]. split; [by left|]. split; [done|]. split; [by apply Hcw|].
      split; [|done]. right.
      exists (filepath_of dir label size), (content_of native size (advance_all done g0)), cap.
      split; [done|].
      destruct Hsame as (_ & _ & _ & _ & _ & Hdirs). rewrite Hdirs in Hd.
      split; [|done].
      destruct (is_root _) eqn:Hr; [|done]. by rewrite path_isdir_root in Hd.
    + exists made, (plan native dir (done ++ [(size, label)]) g0). rewrite Hm.
      split; [done|]. split; [by left|]. split; [done|]. split.
      * apply Hcw. apply Forall_app. split; [done|]. constructor; [|done].
        by apply (ok_pair_same_dirs dir _ _ _ (same_dirs_sym _ _ Hsame)).
      * split; [|done]. left. by rewrite plan_app, commit_app.
Qed.

(** The effects of a run, whatever its outcome: directories made, then
    complete iterations along the plan, then at most one file cut short. *)
Lemma generate_trace labels sizes dir seed w r w' :
  generate native labels sizes dir seed w = (r, w') ->
  exists made done tail,
    done `prefix_of` plan_of native labels sizes dir seed /\
    trace w' = trace w ++ (EvMkdir <$> made) ++ events_of done ++ tail /\
    (tail = [] \/
     exists path content n,
       plan_of native labels sizes dir seed !! length done = Some (path, content) /\
       tail = [EvShortWrite path (take n content)]) /\
    (forall u, r = Ok u -> done = plan_of native labels sizes dir seed /\ tail = []).
Proof.
  intros Hrun.
  destruct (generate_world _ _ _ _ _ _ _ Hrun)
    as (made & done & _ & _ & Hpre & _ & Hw' & Hok).
  destruct Hw' as [->|(path & c & n & Hnext & _ & _ & ->)].
  - exists made, done, []. split; [done|]. split; [|split; [by left|]].
    + by rewrite commit_trace, mkdirs_of_trace, app_nil_r, app_assoc.
    + intros u Hu. by destruct (Hok u Hu).
  - exists made, done, [EvShortWrite path (take n c)].
    split; [done|]. split; [|split].
    + simpl. by rewrite commit_trace, mkdirs_of_trace, !app_assoc.
    + right. by exists path, c, n.
    + intros u Hu. destruct (Hok u Hu) as [-> _].
      by rewrite lookup_ge_None_2 in Hnext.
Qed.

Lemma generate_effects labels sizes dir seed w r w' :
  generate native labels sizes dir seed w = (r, w') ->
  exists made done tail,
    done `prefix_of` plan_of native labels sizes dir seed /\
    effects w w' = (EvMkdir <$> made) ++ events_of done ++ tail /\
    (tail = [] \/
     exists path content n,
       plan_of native labels sizes dir seed !! length done = Some (path, content) /\
       tail = [EvShortWrite path (take n content)]) /\
    (forall u, r = Ok u -> done = plan_of native labels sizes dir seed /\ tail = []).
Proof.
  intros Hrun.
  destruct (generate_trace _ _ _ _ _ _ _ Hrun) as (made & done & tail & H1 & H2 & H3 & H4).
  exists made, done, tail. split; [done|]. split; [by apply effects_app|done].
Qed.

Lemma writes_tail tail :
  (tail = [] \/ exists path (content : list Z), tail = [EvShortWrite path content]) ->
  writes tail = [] /\
  omap (fun ev => match ev with EvPrint line => Some line | _ => None end) tail = [].
Proof. by intros [->|(path & content & ->)]. Qed.

(** What was written in full, whatever the outcome, is a start of the
    plan. *)
Lemma generate_writes labels sizes dir seed w r w' :
  generate native labels sizes dir seed w = (r, w') ->
  writes (effects w w') `prefix_of` plan_of native labels sizes dir seed /\
  stdout w' = stdout w ++ lines_of (writes (effects w w')) /\
  (forall u, r = Ok u -> writes (effects w w') = plan_of native labels sizes dir seed).
Proof.
  intros Hrun.
  destruct (generate_trace _ _ _ _ _ _ _ Hrun) as (made & done & tail & Hpre & Htr & Htail & Hok).
  assert (Htail' : writes tail = [] /\
            omap (fun ev => match ev with EvPrint line => Some line | _ => None end) tail = []).
  { apply writes_tail. destruct Htail as [->|(path & c & n & _ & ->)]; [by left|].
    right. by exists path, (take n c). }
  destruct Htail' as [Hwt Hpt].
  assert (Hw : writes (effects w w') = done).
  { rewrite (effects_app _ _ _ Htr), !writes_app, writes_mkdirs, writes_events_of, Hwt.
    by rewrite app_nil_r. }
  rewrite Hw. split; [done|]. split.
  - rewrite (stdout_trace_app _ _ _ Htr), !omap_app, prints_mkdirs, prints_events_of, Hpt.
    by rewrite app_nil_r.
  - intros u Hu. by destruct (Hok u Hu).
Qed.

(** *** The stream of draws *)

Lemma advance_zero (g : G) : advance 0 g = g.
Proof. reflexivity. Qed.

Lemma advance_all_draws ps (g : G) :
  advance_all ps g = advance (draws_of ps) g.
Proof.
  revert g. induction ps as [|[size label] ps IH]; intros g; [done|].
  unfold draws_of. simpl. by rewrite IH, advance_add.
Qed.

(** The draws are taken one after the other, each from the generator that
    the draw before it left. *)
Lemma stream_step n (g : G) :
  stream (S n) g = (bounded_uint32 9 g).1 :: stream n (bounded_uint32 9 g).2 /\
  advance (S n) g = advance n (bounded_uint32 9 g).2.
Proof.
  unfold stream, advance. cbn [fill].
  destruct (bounded_uint32 9 g) as [x g1]. cbn [fst snd].
  by destruct (fill n 9 g1) as [xs g2].
Qed.

(** A later part of the stream is the stream of the advanced generator. *)
Lemma stream_slice off cnt n (g : G) :
  (off + cnt <= n)%nat ->
  take cnt (drop off (stream n g)) = stream cnt (advance off g).
Proof.
  intros Hn. replace n with (off + (cnt + (n - off - cnt)))%nat by lia.
  rewrite stream_add, drop_app_length' by by rewrite stream_length.
  rewrite stream_add, take_app_length' by by rewrite stream_length. done.
Qed.

Lemma stream_in_range n (g : G) : Forall Int32.in_range (stream n g).
Proof.
  eapply Forall_impl; [apply stream_range|]. intros x. apply small_is_int32.
Qed.

(** The file of the k-th pair holds the draws that follow those of the
    pairs before it. *)
Lemma plan_of_slice labels sizes dir seed k size label n :
  pairs labels sizes !! k = Some (size, label) ->
  (draws_of (take k (pairs labels sizes)) + count size <= n)%nat ->
  plan_of native labels sizes dir seed !! k =
    Some (filepath_of dir label size,
          Int32.encode native
            (take (count size)
               (drop (draws_of (take k (pairs labels sizes)))
                  (stream n (seed_state seed))))).
Proof.
  intros Hk Hn. unfold plan_of.
  set (ps := pairs labels sizes) in *.
  rewrite <- (take_drop_middle ps k (size, label) Hk) at 1.
  rewrite plan_app. rewrite lookup_app_r by (rewrite plan_length, length_take; lia).
  rewrite plan_length.
  replace (k - length (take k ps))%nat with 0%nat
    by (rewrite length_take; apply lookup_lt_Some in Hk; lia).
  simpl. unfold content_of.
  by rewrite advance_all_draws, (stream_slice _ _ n).
Qed.

(** Every file of the plan is the image of a square array of draws. *)
Lemma plan_of_content labels sizes dir seed path content :
  (path, content) ∈ plan_of native labels sizes dir seed ->
  exists size label (g : G),
    (size, label) ∈ pairs labels sizes /\
    path = filepath_of dir label size /\
    content = Int32.encode native (stream (count size) g).
Proof.
  intros Hin. apply list_elem_of_lookup in Hin as [i Hi].
  apply plan_lookup in Hi as (size & label & Hp & -> & ->).
  exists size, label, (advance_all (take i (pairs labels sizes)) (seed_state seed)).
  split; [|done]. by apply list_elem_of_lookup_2 in Hp.
Qed.

(** *** The numbers in the files *)

(** What is decoded from the files of a run: draws from [0, 9], for each
    file those that follow the draws of the files before it. *)
Lemma run_values labels sizes dir seed w r w' :
  generate native labels sizes dir seed w = (r, w') ->
  (forall path content,
     EvWrite path content ∈ effects w w' \/ EvShortWrite path content ∈ effects w w' ->
     Forall (fun x => 0 <= x <= 9) (Int32.decode native content)) /\
  (forall k path content,
     writes (effects w w') !! k = Some (path, content) ->
     exists size label,
       pairs labels sizes !! k = Some (size, label) /\
       path = filepath_of dir label size /\
       content = Int32.encode native
                   (stream (count size)
                      (advance (draws_of (take k (pairs labels sizes))) (seed_state seed))) /\
       Int32.decode native content =
         stream (count size)
           (advance (draws_of (take k (pairs labels sizes))) (seed_state seed))) /\
  (r = Ok tt ->
   forall size label, size ∈ sizes -> label ∈ labels ->
     exists content,
       read_file w' (filepath_of dir label size) = Some content /\
       Forall (fun x => 0 <= x <= 9) (Int32.decode native content)).
Proof.
  intros Hrun.
  assert (Hplan : forall path content,
            (path, content) ∈ plan_of native labels sizes dir seed ->
            forall n, Forall (fun x => 0 <= x <= 9) (Int32.decode native (take n content))).
  { intros path content Hin n.
    apply plan_of_content in Hin as (size & label & g & _ & _ & ->).
    destruct (Int32Facts.decode_take_encode native n _ (stream_in_range (count size) g))
      as [k ->].
    apply Forall_take, stream_range. }
  assert (Hfull : forall path content,
            (path, content) ∈ plan_of native labels sizes dir seed ->
            Forall (fun x => 0 <= x <= 9) (Int32.decode native content)).
  { intros path content Hin.
    rewrite <- (take_ge content (length content)) by done. by eapply Hplan. }
  split; [|split].
  - destruct (generate_effects _ _ _ _ _ _ _ Hrun)
      as (made & done & tail & Hpre & -> & Htail & _).
    intros path content Hev.
    assert (Hdone : forall ev, ev ∈ events_of done ->
              match ev with
              | EvWrite p c => (p, c) ∈ plan_of native labels sizes dir seed
              | EvPrint _ => True
              | _ => False
              end).
    { intros ev. unfold events_of. rewrite list_elem_of_bind.
      intros ([p c] & Hin & Hpc). simpl in Hin.
      apply elem_of_cons in Hin as [->|Hin].
      - destruct Hpre as [rest ->]. apply elem_of_app. by left.
      - by apply list_elem_of_singleton in Hin as ->. }
    destruct Hev as [Hev|Hev].
    + rewrite !elem_of_app in Hev. destruct Hev as [Hev|[Hev|Hev]].
      * by apply list_elem_of_fmap in Hev as (q & ? & _).
      * apply Hdone in Hev. by eapply Hfull.
      * destruct Htail as [->|(p & c & n & _ & ->)]; [by apply elem_of_nil in Hev|].
        by apply list_elem_of_singleton in Hev.
    + rewrite !elem_of_app in Hev. destruct Hev as [Hev|[Hev|Hev]].
      * by apply list_elem_of_fmap in Hev as (q & ? & _).
      * by apply Hdone in Hev.
      * destruct Htail as [->|(p & c & n & Hnext & ->)]; [by apply elem_of_nil in Hev|].
        apply list_elem_of_singleton in Hev. injection Hev as -> ->.
        apply list_elem_of_lookup_2 in Hnext. by eapply Hplan.
  - destruct (generate_writes _ _ _ _ _ _ _ Hrun) as (Hpre & _ & _).
    intros k path content Hk.
    apply (prefix_lookup_Some _ _ _ _ Hk) in Hpre.
    apply plan_lookup in Hpre as (size & label & Hp & -> & ->).
    exists size, label. rewrite advance_all_draws. unfold content_of.
    repeat split; try done.
    apply Int32Facts.decode_encode, stream_in_range.
  - intros ->. apply generate_ok_effects in Hrun as (made & _ & _ & Hall & -> & _).
    intros size label Hs Hl.
    destruct (read_file_planned labels sizes dir seed _ size label Hall Hs Hl)
      as (path & c & Hin & _ & _ & _ & Hr).
    eexists. split; [exact Hr|].
    destruct (stored_take (mkdirs_of made (set_pending [] w))
                (key_of (filepath_of dir label size)) c) as [n ->].
    by eapply Hplan.
Qed.

(** *** The format of the files *)






(** *** The order of the files and of the lines *)

(** The paths of the plan, as the nested loops give them. *)
Lemma plan_of_paths labels sizes dir seed :
  (plan_of native labels sizes dir seed).*1
  = (size ← sizes; label ← labels; [filepath_of dir label size]).
Proof.
  unfold plan_of. rewrite plan_paths. unfold pairs.
  induction sizes as [|size sizes IH]; [done|].
  cbn [mbind list_bind]. fold (@app (Z * string)). fold (@app string).
  rewrite fmap_app. f_equal; [|apply IH].
  clear. by induction labels as [|l labels IH]; [|cbn; f_equal].
Qed.

(** C4.  The files are written in the order of the nested loops, sizes
    outermost and the labels in their order inside; the contents come from
    the one generator, advanced from file to file; each complete write is
    followed at once by its line [Saved <filepath>], so that, however the
    run ends, standard output gained exactly one such line per file
    written, in the order of the writes. *)
Theorem generation_order labels sizes dir seed w r w' :
  generate native labels sizes dir seed w = (r, w') ->
  stdout w' = stdout w ++ ((fun pc => "Saved " +:+ pc.1) <$> writes (effects w w')) /\
  writes (effects w w') `prefix_of` plan_of native labels sizes dir seed /\
  (plan_of native labels sizes dir seed).*1
    = (size ← sizes; label ← labels; [filepath_of dir label size]) /\
  (forall i path content,
     plan_of native labels sizes dir seed !! i = Some (path, content) ->
     exists size label,
       pairs labels sizes !! i = Some (size, label) /\
       path = filepath_of dir label size /\
       content = content_of native size
                   (advance_all (take i (pairs labels sizes)) (seed_state seed))) /\
  (r = Ok tt ->
   exists made,
     effects w w' = (EvMkdir <$> made) ++
       (pc ← plan_of native labels sizes dir seed;
        [EvWrite pc.1 pc.2; EvPrint ("Saved " +:+ pc.1)])).
Proof.
  intros Hrun.
  destruct (generate_writes _ _ _ _ _ _ _ Hrun) as (Hpre & Hout & _).
  split; [done|]. split; [done|]. split; [apply plan_of_paths|]. split.
  - intros i path content. apply plan_lookup.
  - intros ->. apply generate_ok_effects in Hrun as (made & _ & _ & _ & _ & Heff).
    by exists made.
Qed.

(** *** The script as it stands *)

Lemma main_paths_eq :
  (fun p : Z * string => filepath_of OUTPUT_DIR p.2 p.1) <$> pairs LABELS MATRIX_SIZES
  = main_paths.
Proof. vm_compute. reflexivity. Qed.

(** The directories [makedirs] makes lie along the path. *)
Lemma along_prefix dir w q :
  along (rev (dir_key dir)) w q -> q `prefix_of` dir_key dir /\ path_exists w q = false.
Proof.
  intros (He & rs & [ks Hrs] & ->). split; [|done].
  exists (rev ks). rewrite <- rev_app_distr, <- Hrs. by rewrite rev_involutive.
Qed.

(** C5.  With the constants of the script a complete run writes ten files
    and no more, named [A_64.bin], [B_64.bin], ..., [B_1024.bin] in this
    order, all of them entries of the directory [matrices]; apart from that
    directory and these ten entries the file system is as it was. *)
Theorem main_writes_ten_files w w' :
  main native w = (Ok tt, w') ->
  (writes (effects w w')).*1 = main_paths /\
  length (writes (effects w w')) = 10%nat /\
  NoDup main_paths /\
  path_isdir w' ["matrices"] = true /\
  (forall path, path ∈ main_paths ->
     parent (key_of path) = ["matrices"] /\
     exists content, read_file w' path = Some content) /\
  (forall k, k <> ["matrices"] -> k ∉ key_of <$> main_paths ->
     nodes w' !! k = nodes w !! k).
Proof.
  unfold main. intros Hrun.
  apply generate_ok_effects in Hrun as (made & Hmade & Hd & Hall & -> & Heff).
  set (pl := plan_of native LABELS MATRIX_SIZES OUTPUT_DIR SEED) in *.
  set (w0 := mkdirs_of made (set_pending [] w)) in *.
  assert (Hpaths : pl.*1 = main_paths).
  { unfold pl, plan_of. by rewrite plan_paths, main_paths_eq. }
  assert (Hw : writes (effects w (commit pl w0)) = pl).
  { by rewrite Heff, writes_app, writes_mkdirs, writes_events_of. }
  split; [by rewrite Hw|]. split.
  { rewrite Hw. unfold pl, plan_of. by rewrite plan_length. }
  split.
  { apply (bool_decide_unpack _). vm_compute. exact I. }
  split.
  { destruct (commit_same_dirs native OUTPUT_DIR _ (seed_state SEED) _ Hall)
      as (_ & _ & _ & _ & _ & Hsame).
    fold (plan_of native LABELS MATRIX_SIZES OUTPUT_DIR SEED) in Hsame. fold pl in Hsame.
    by rewrite Hsame. }
  split.
  - intros path Hin. rewrite <- main_paths_eq in Hin.
    apply list_elem_of_fmap in Hin as ([size label] & -> & Hin). cbn [fst snd].
    apply elem_of_pairs in Hin as [Hs Hl].
    destruct (key_of_filepath OUTPUT_DIR label size (labels_sep_free label Hl)) as [_ ->].
    split; [by rewrite parent_snoc|].
    destruct (read_file_planned LABELS MATRIX_SIZES OUTPUT_DIR SEED _ size label Hall Hs Hl)
      as (path & c & _ & _ & _ & _ & Hr).
    eexists. exact Hr.
  - intros k Hk Hnot. rewrite commit_nodes.
    assert (Hlw : last_write pl k = None).
    { apply last_write_None. by rewrite Hpaths. }
    rewrite Hlw. unfold w0. rewrite mkdirs_of_nodes. rewrite bool_decide_eq_false_2; [done|].
    intros Hin. rewrite Forall_forall in Hmade.
    destruct (along_prefix _ _ _ (Hmade _ Hin)) as [[ks Hpre] He].
    change (dir_key OUTPUT_DIR) with ["matrices"] in Hpre.
    destruct k as [|c k].
    + by rewrite (path_isdir_exists w []) in He.
    + injection Hpre as <- Hnil. symmetry in Hnil. apply app_eq_nil in Hnil as [-> _]. done.
Qed.

Global Instance ok_pair_dec dir w0 p : Decision (ok_pair dir w0 p).
Proof. unfold ok_pair. apply _. Defined.

(** A console that takes every line. *)
Lemma quiet_silent c pend lines : (forall ls, c ls = None) -> quiet c pend lines.
Proof.
  intros Hc. revert pend. induction lines as [|l lines IH]; intros pend; [done|].
  split; [apply Hc|apply IH].
Qed.

(** In a new directory, on a machine that refuses nothing, the script
    runs to its end, whatever the seed. *)
Lemma script_on_fresh seed :
  0 <= seed ->
  generate native LABELS MATRIX_SIZES OUTPUT_DIR seed fresh =
  (Ok tt, commit (plan_of native LABELS MATRIX_SIZES OUTPUT_DIR seed)
            (mkdirs_of [["matrices"]] fresh)).
Proof.
  intros Hseed. apply generate_succeeds.
  - vm_compute. reflexivity.
  - done.
  - apply (bool_decide_unpack _). vm_compute. exact I.
  - by apply quiet_silent.
Qed.

Lemma main_on_fresh :
  main native fresh =
  (Ok tt, commit (plan_of native LABELS MATRIX_SIZES OUTPUT_DIR SEED)
            (mkdirs_of [["matrices"]] fresh)).
Proof. unfold main. apply script_on_fresh. unfold SEED. lia. Qed.

(** *** Runs that raise *)






Lemma exit_status_ok w :
  exit_status (Ok tt) w = 0 \/ exit_status (Ok tt) w = 120.
Proof.
  unfold exit_status. destruct (pending w); [by left|].
  destruct (at_exit w _); [by right|by left].
Qed.



Lemma read_file_written w1 path content n :
  can_write w1 path n = true ->
  read_file (written path content w1) path = Some (stored w1 (key_of path) content).
Proof.
  intros Hc. unfold read_file, written, stat.
  rewrite (can_write_resolve w1 path n Hc), (can_write_not_root w1 path n Hc). simpl.
  by rewrite lookup_insert_eq.
Qed.





(** *** The directory and the files that are there already *)

Lemma prefix_snoc_inv (q p : list string) c :
  q `prefix_of` p ++ [c] -> q = p ++ [c] \/ q `prefix_of` p.
Proof.
  intros [k Hk]. destruct k as [|x k _] using rev_ind.
  - left. by rewrite app_nil_r in Hk.
  - right. rewrite app_assoc in Hk. apply app_inj_tail in Hk as [-> _]. by eexists.
Qed.

(** In a tree, every directory above a directory is there. *)
Lemma well_formed_prefix w p q :
  well_formed w -> path_isdir w p = true -> q `prefix_of` p -> path_isdir w q = true.
Proof.
  intros Hwf Hp Hq.
  destruct (well_formed_above w p q Hwf (path_isdir_exists _ _ Hp) Hq) as [Hd|Heq];
    [done|by subst q].
Qed.

(** The lines of a process are nothing to the file system. *)
Lemma path_isdir_mkdirs_pending made ls w q :
  path_isdir (mkdirs_of made (set_pending ls w)) q = path_isdir (mkdirs_of made w) q.
Proof. unfold path_isdir. by rewrite !stat_mkdirs_of. Qed.

Lemma well_formed_set_pending ls w : well_formed w -> well_formed (set_pending ls w).
Proof. intros Hwf p n Hp. exact (Hwf p n Hp). Qed.

Lemma elem_of_missing w p q :
  q ∈ missing w p <-> q `prefix_of` p /\ path_exists w q = false.
Proof.
  unfold missing. rewrite list_elem_of_In, filter_In, <- list_elem_of_In, elem_of_prefixes.
  rewrite negb_true_iff. split; [tauto|]. intros [Hq He]. split; [|done]. split; [|done].
  by intros ->.
Qed.

(** Files written where no directory is leave the directories as they
    are. *)
Lemma commit_dirs pl w0 :
  Forall (fun pc => can_write w0 pc.1 (Z.of_nat (length pc.2)) = true) pl ->
  same_dirs w0 (commit pl w0).
Proof.
  revert w0. induction pl as [|[path c] pl IH]; intros w0 Hall; [apply same_dirs_refl|].
  apply Forall_cons in Hall as [Hc Hall]. simpl in Hc.
  pose proof (same_dirs_saved w0 path c _ Hc) as Hs.
  rewrite commit_cons. eapply same_dirs_trans; [exact Hs|]. apply IH.
  eapply Forall_impl; [exact Hall|]. intros pc Hpc. cbn beta in *.
  by rewrite (can_write_same_dirs w0 _ _ _ Hs).
Qed.

(** Whatever the outcome of a run, the directories are those that
    [makedirs] left. *)
Lemma generate_dirs labels sizes dir seed w r w' :
  generate native labels sizes dir seed w = (r, w') ->
  exists made,
    (makedirs dir true (set_pending [] w)).2 = mkdirs_of made (set_pending [] w) /\
    forall q, path_isdir w' q = path_isdir (mkdirs_of made w) q.
Proof.
  intros Hrun.
  destruct (generate_world _ _ _ _ _ _ _ Hrun)
    as (made & done & Hm & _ & _ & Hcw & Hw' & _).
  exists made. split; [done|]. intros q.
  rewrite <- (path_isdir_mkdirs_pending made [] w q).
  destruct (commit_dirs done _ Hcw) as (_ & _ & _ & _ & _ & Hd).
  destruct Hw' as [->|(path & c & n & _ & _ & Hnd & ->)]; [done|].
  unfold cut_short. rewrite <- Hd. rewrite <- Hd in Hnd.
  change (path_isdir (set_node (key_of path) (File (take n c))
            (commit done (mkdirs_of made (set_pending [] w)))) q
          = path_isdir (commit done (mkdirs_of made (set_pending [] w))) q).
  by apply path_isdir_set_file.
Qed.

(** A regular file that is there can be written over. *)
Lemma overwrite w1 path old content :
  well_formed w1 ->
  read_file w1 path = Some old ->
  faults w1 !! key_of path = None ->
  write_file path itemsize content w1 = (Ok tt, written path content w1) /\
  read_file (written path content w1) path = Some content.
Proof.
  intros Hwf Hold Hf. unfold read_file in Hold.
  destruct (resolve path) as [p|] eqn:Hres; [|done].
  assert (Hk : key_of path = p) by (unfold key_of; by rewrite Hres).
  rewrite Hk in Hf.
  destruct (stat w1 p) as [[|c]|] eqn:Hst; try done.
  assert (Hc : can_write w1 path (Z.of_nat (length content)) = true).
  { unfold can_write. rewrite Hres, Hf.
    assert (Hd : path_isdir w1 p = false) by (unfold path_isdir; by rewrite Hst).
    rewrite Hd. simpl. rewrite andb_true_r.
    apply well_formed_parent; [done|]. unfold path_exists. by rewrite Hst. }
  split; [by apply write_file_ok|].
  rewrite (read_file_written _ _ _ _ Hc). rewrite Hk. by rewrite stored_all.
Qed.

(** C7.  The first thing a run does is [makedirs]: whatever it makes it
    makes before any file is written or line printed, and only along the
    path of the output directory, where nothing was.  Where the file
    system is a tree, nothing that exists along that path is a regular
    file, and the environment refuses none of its directories, [makedirs]
    goes through: it makes the directories that are missing along the path,
    parents first, and no other, so that the output directory and
    everything above it are directories from then on, whatever becomes of
    the run.  On a directory that is there [makedirs] does nothing and
    returns.  Writing to a file that is there replaces its content and
    raises nothing; after a complete run every file of a (label, size) pair
    holds what its device stored of the bytes generated for the last write
    to it, whatever was there before. *)
Theorem directory_then_overwrite labels sizes dir seed w r w' :
  generate native labels sizes dir seed w = (r, w') ->
  (exists made rest,
     (makedirs dir true (set_pending [] w)).2 = mkdirs_of made (set_pending [] w) /\
     effects w w' = (EvMkdir <$> made) ++ rest /\
     (forall q, EvMkdir q ∉ rest) /\
     (forall q, q ∈ made -> q `prefix_of` dir_key dir /\ path_exists w q = false) /\
     (rest <> [] \/ r = Ok tt ->
      dir <> "" /\
      path_isdir (mkdirs_of made w) (dir_key dir) = true /\
      (well_formed w ->
       forall q, q `prefix_of` dir_key dir ->
         path_isdir (mkdirs_of made w) q = true /\
         (q ∈ made <-> path_exists w q = false)))) /\
  (well_formed w -> dir <> "" ->
   (forall q, q `prefix_of` dir_key dir ->
      faults w !! q = None /\ (path_exists w q = true -> path_isdir w q = true)) ->
   makedirs dir true (set_pending [] w)
     = (Ok tt, mkdirs_of (missing w (dir_key dir)) (set_pending [] w)) /\
   (exists rest,
      effects w w' = (EvMkdir <$> missing w (dir_key dir)) ++ rest /\
      forall q, EvMkdir q ∉ rest) /\
   (forall q, q ∈ missing w (dir_key dir) <->
      q `prefix_of` dir_key dir /\ path_exists w q = false) /\
   (forall q, q `prefix_of` dir_key dir -> path_isdir w' q = true)) /\
  (well_formed w -> dir <> "" -> path_isdir w (dir_key dir) = true ->
   makedirs dir true w = (Ok tt, w)) /\
  (forall w1 matrix path old,
     well_formed w1 ->
     read_file w1 path = Some old ->
     faults w1 !! key_of path = None ->
     tofile native matrix path w1 = (Ok tt, written path (tobytes native matrix) w1) /\
     read_file (written path (tobytes native matrix) w1) path
       = Some (tobytes native matrix)) /\
  (r = Ok tt ->
   forall size label, size ∈ sizes -> label ∈ labels ->
     exists content,
       last_write (plan_of native labels sizes dir seed) (key_of (filepath_of dir label size))
         = Some content /\
       read_file w' (filepath_of dir label size)
         = Some (stored w (key_of (filepath_of dir label size)) content) /\
       (faults w !! key_of (filepath_of dir label size) = None ->
        read_file w' (filepath_of dir label size) = Some content)).
Proof.
  intros Hrun.
  assert (Hfirst : exists made rest,
     (makedirs dir true (set_pending [] w)).2 = mkdirs_of made (set_pending [] w) /\
     effects w w' = (EvMkdir <$> made) ++ rest /\
     (forall q, EvMkdir q ∉ rest) /\
     (forall q, q ∈ made -> q `prefix_of` dir_key dir /\ path_exists w q = false) /\
     (rest <> [] \/ r = Ok tt ->
      dir <> "" /\
      path_isdir (mkdirs_of made w) (dir_key dir) = true /\
      (well_formed w ->
       forall q, q `prefix_of` dir_key dir ->
         path_isdir (mkdirs_of made w) q = true /\
         (q ∈ made <-> path_exists w q = false)))).
  { destruct (generate_world _ _ _ _ _ _ _ Hrun)
      as (made & done & Hm & Hmok & Hpre & Hcw & Hw' & _).
    destruct (makedirs_spec dir (set_pending [] w)) as (made' & Hm' & Hmade & Hwf & Hres).
    assert (Heq : mkdirs_of made' (set_pending [] w) = mkdirs_of made (set_pending [] w))
      by congruence.
    rewrite Heq in Hwf, Hres.
    assert (Hmade_eq : made' = made).
    { apply (f_equal trace) in Heq. rewrite !mkdirs_of_trace in Heq.
      apply app_inv_head in Heq.
      revert Heq. generalize made. clear. induction made' as [|q made' IH]; intros [|q' made];
        try done. simpl. intros [= -> Heq]. f_equal. by apply IH. }
    subst made'.
    assert (Htr : exists tail,
              trace w' = trace w ++ (EvMkdir <$> made) ++ events_of done ++ tail /\
              (forall q, EvMkdir q ∉ tail) /\
              ((events_of done ++ tail <> [] \/ r = Ok tt) ->
               (makedirs dir true (set_pending [] w)).1 = Ok tt)).
    { destruct Hw' as [->|(path & c & n & _ & _ & _ & ->)].
      - exists []. split; [by rewrite commit_trace, mkdirs_of_trace, app_nil_r, app_assoc|].
        split; [intros q; apply not_elem_of_nil|].
        intros Hne. destruct Hmok as [Hok|(-> & _ & e & ->)]; [done|].
        by destruct Hne.
      - exists [EvShortWrite path (take n c)].
        split; [simpl; by rewrite commit_trace, mkdirs_of_trace, !app_assoc|].
        split; [by intros q ?%list_elem_of_singleton|].
        intros _. destruct Hmok as [Hok|(-> & Hw & _)]; [done|].
        apply (f_equal (fun w0 => length (trace w0))) in Hw. simpl in Hw.
        rewrite length_app in Hw. simpl in Hw. lia. }
    destruct Htr as (tail & Htr & Htail & Hok).
    exists made, (events_of done ++ tail).
    split; [done|]. split; [by apply effects_app|]. split; [|split].
    + intros q Hq. apply elem_of_app in Hq as [Hq|Hq]; [|by apply (Htail q)].
      unfold events_of in Hq. apply list_elem_of_bind in Hq as (pc & Hq & _).
      apply elem_of_cons in Hq as [?|Hq]; [done|]. by apply list_elem_of_singleton in Hq.
    + intros q Hq. rewrite Forall_forall in Hmade. by apply along_prefix, Hmade.
    + intros Hne. specialize (Hok Hne). rewrite Hok in Hres.
      destruct Hres as [Hdir Hd]. rewrite path_isdir_mkdirs_pending in Hd.
      split; [done|]. split; [done|].
      intros Hw q Hq. specialize (Hwf (well_formed_set_pending [] w Hw)).
      assert (Hwf' : well_formed (mkdirs_of made w)).
      { intros p n Hp. rewrite <- (path_isdir_mkdirs_pending made [] w).
        apply (Hwf p n). revert Hp. by rewrite !mkdirs_of_nodes. }
      pose proof (well_formed_prefix _ _ _ Hwf' Hd Hq) as Hdq. split; [done|].
      split.
      * intros Hin. rewrite Forall_forall in Hmade.
        by destruct (along_prefix _ _ _ (Hmade _ Hin)).
      * intros He. revert Hdq. unfold path_isdir. rewrite stat_mkdirs_of.
        revert He. unfold path_exists, stat. destruct (is_root q); [done|].
        case_bool_decide; [done|]. by destruct (nodes w !! q). }
  split; [exact Hfirst|]. split; [|split; [|split]].
  - intros Hwf Hne Hclear.
    assert (Hm : makedirs dir true (set_pending [] w)
                 = (Ok tt, mkdirs_of (missing w (dir_key dir)) (set_pending [] w))).
    { apply (makedirs_ok dir (set_pending [] w)); [by apply well_formed_set_pending|done..]. }
    split; [exact Hm|].
    destruct Hfirst as (made & rest & Hmade & Heff & Hrest & _).
    rewrite Hm in Hmade. cbn [snd] in Hmade.
    assert (Hmade_eq : made = missing w (dir_key dir)).
    { apply (f_equal trace) in Hmade. rewrite !mkdirs_of_trace in Hmade.
      apply app_inv_head in Hmade. symmetry.
      revert Hmade. generalize (missing w (dir_key dir)). clear.
      induction made as [|q made IH]; intros [|q' made']; try done.
      simpl. intros [= -> Heq]. f_equal. by apply IH. }
    subst made. split; [by exists rest|]. split; [apply elem_of_missing|].
    intros q Hq.
    destruct (generate_dirs _ _ _ _ _ _ _ Hrun) as (made & Hmade' & Hdirs).
    rewrite Hm in Hmade'. cbn [snd] in Hmade'.
    assert (Hmade_eq : made = missing w (dir_key dir)).
    { apply (f_equal trace) in Hmade'. rewrite !mkdirs_of_trace in Hmade'.
      apply app_inv_head in Hmade'. symmetry.
      revert Hmade'. generalize (missing w (dir_key dir)). clear.
      induction made as [|q made IH]; intros [|q' made']; try done.
      simpl. intros [= -> Heq]. f_equal. by apply IH. }
    subst made. rewrite Hdirs. unfold path_isdir. rewrite stat_mkdirs_of.
    destruct (is_root q) eqn:Hroot; [done|].
    destruct (path_exists w q) eqn:He.
    + destruct (Hclear q Hq) as [_ Hd]. specialize (Hd He).
      revert Hd. unfold path_isdir, stat. rewrite Hroot.
      by destruct (bool_decide _).
    + rewrite bool_decide_eq_true_2; [done|]. by apply elem_of_missing.
  - apply makedirs_exists.
  - intros w1 matrix path old Hwf Hold Hf. unfold tofile.
    by apply (overwrite w1 path old).
  - intros ->. apply generate_ok_effects in Hrun as (made & _ & _ & Hall & -> & _).
    intros size label Hs Hl.
    destruct (read_file_planned labels sizes dir seed _ size label Hall Hs Hl)
      as (path & c & _ & _ & _ & Hlw & Hr).
    assert (Hst : stored (mkdirs_of made (set_pending [] w))
                    (key_of (filepath_of dir label size)) c
                  = stored w (key_of (filepath_of dir label size)) c).
    { unfold stored. by rewrite mkdirs_of_faults. }
    rewrite Hst in Hr. exists c. split; [done|]. split; [done|].
    intros Hf. by rewrite Hr, stored_all.
Qed.

(** *** Running twice *)

Lemma makedirs_well_formed dir w r w0 :
  makedirs dir true w = (r, w0) -> well_formed w -> well_formed w0.
Proof.
  intros Hm Hwf. destruct (makedirs_spec dir w) as (made & Hw0 & _ & Hwf' & _).
  rewrite Hm in Hw0. simpl in Hw0. subst w0. by apply Hwf'.
Qed.

(** C8.  In a file system that is a tree, a complete run followed by a
    second run with the same configuration: the second run is complete
    too, it writes the same bytes to the same paths in the same order, and
    it leaves every entry of the file system, directories and files, as the
    first run left it. *)
Theorem second_run_changes_nothing labels sizes dir seed w w1 :
  well_formed w ->
  generate native labels sizes dir seed w = (Ok tt, w1) ->
  exists w2,
    generate native labels sizes dir seed w1 = (Ok tt, w2) /\
    nodes w2 = nodes w1 /\
    writes (effects w1 w2) = writes (effects w w1) /\
    forall path, read_file w2 path = read_file w1 path.
Proof.
  intros Hwf Hrun.
  pose proof Hrun as Hrun'.
  apply generate_ok in Hrun' as (made & Hm & _ & Hdir & Hd & Hseed & Hall & Hq & Hw1).
  set (pl := plan_of native labels sizes dir seed) in *.
  set (w0 := mkdirs_of made (set_pending [] w)) in *.
  assert (Hwf0 : well_formed w0).
  { eapply makedirs_well_formed; [exact Hm|]. by apply well_formed_set_pending. }
  pose proof (commit_same_dirs native dir _ (seed_state seed) _ Hall) as Hsame.
  fold (plan_of native labels sizes dir seed) in Hsame. fold pl in Hsame.
  rewrite <- Hw1 in Hsame.
  assert (Hwf1 : well_formed w1).
  { rewrite Hw1. by apply well_formed_commit. }
  assert (Hsame1 : same_dirs w0 (set_pending [] w1)).
  { eapply same_dirs_trans; [exact Hsame|]. apply same_dirs_set_pending. }
  assert (Hm1 : makedirs dir true (set_pending [] w1) = (Ok tt, set_pending [] w1)).
  { apply makedirs_exists; [by apply well_formed_set_pending|done|].
    destruct Hsame1 as (_ & _ & _ & _ & _ & Hisdir). by rewrite Hisdir. }
  assert (Hall1 : Forall (ok_pair dir (set_pending [] w1)) (pairs labels sizes)).
  { eapply Forall_impl; [exact Hall|]. intros p. by apply ok_pair_same_dirs. }
  assert (Hcon : console w1 = console w).
  { rewrite Hw1, (proj1 (commit_console _ _)). unfold w0. by rewrite mkdirs_of_console. }
  exists (commit pl (set_pending [] w1)).
  split.
  { apply generate_succeeds; [done..|]. by rewrite Hcon. }
  assert (Hnodes : nodes (commit pl (set_pending [] w1)) = nodes w1).
  { apply map_eq. intros k. rewrite commit_nodes.
    destruct (last_write pl k) as [c|] eqn:Hlw; [|done].
    rewrite Hw1, commit_nodes, Hlw. do 2 f_equal.
    unfold stored. cbn [faults set_pending]. by rewrite commit_faults. }
  split; [done|]. split.
  - rewrite (effects_app w1 (commit pl (set_pending [] w1)) (events_of pl))
      by exact (commit_trace pl (set_pending [] w1)).
    rewrite (effects_app w w1 ((EvMkdir <$> made) ++ events_of pl)).
    + by rewrite writes_app, writes_mkdirs.
    + rewrite Hw1, commit_trace. unfold w0. by rewrite mkdirs_of_trace, app_assoc.
  - intros path. unfold read_file, stat. by rewrite Hnodes.
Qed.

(** *** Labels and the stream of draws *)

(** The contents of the plan depend on the sizes of the pairs only. *)
Lemma plan_contents dir1 dir2 ps1 ps2 (g : G) :
  ps1.*1 = ps2.*1 ->
  (plan native dir1 ps1 g).*2 = (plan native dir2 ps2 g).*2.
Proof.
  revert ps2 g. induction ps1 as [|[s1 l1] ps1 IH]; intros [|[s2 l2] ps2] g; try done.
  simpl. intros [= -> Heq]. f_equal. by apply IH.
Qed.

Lemma pairs_sizes labels sizes :
  (pairs labels sizes).*1 = (size ← sizes; replicate (length labels) size).
Proof.
  unfold pairs. induction sizes as [|size sizes IH]; [done|].
  cbn [mbind list_bind]. fold (@app (Z * string)). fold (@app Z).
  rewrite fmap_app, IH. f_equal.
  clear. by induction labels as [|l labels IH]; [|cbn; f_equal].
Qed.

(** C10.  The labels name the files and do nothing else.  Two complete
    runs with the same seed, sizes and directory and with label lists of the
    same length write the same byte strings in the same order; the paths are
    those of the nested loops over the sizes and over each list of labels.
    The k-th file holds the draws that follow, in the one stream of the
    seeded generator, the [size * size] draws of each of the k-1 files
    before it, and their number is fixed by the sizes and by how many labels
    there are. *)
Theorem labels_only_name_files labels labels' sizes dir seed w1 w1' w2 w2' :
  length labels = length labels' ->
  generate native labels sizes dir seed w1 = (Ok tt, w1') ->
  generate native labels' sizes dir seed w2 = (Ok tt, w2') ->
  (writes (effects w1 w1')).*2 = (writes (effects w2 w2')).*2 /\
  (writes (effects w1 w1')).*1 = (size ← sizes; label ← labels; [filepath_of dir label size]) /\
  (writes (effects w2 w2')).*1 = (size ← sizes; label ← labels'; [filepath_of dir label size]) /\
  (pairs labels sizes).*1 = (size ← sizes; replicate (length labels) size) /\
  forall k size label n,
    pairs labels sizes !! k = Some (size, label) ->
    (draws_of (take k (pairs labels sizes)) + count size <= n)%nat ->
    writes (effects w1 w1') !! k =
      Some (filepath_of dir label size,
            Int32.encode native
              (take (count size)
                 (drop (draws_of (take k (pairs labels sizes)))
                    (stream n (seed_state seed))))).
Proof.
  intros Hlen H1 H2.
  apply generate_ok_effects in H1 as (made1 & _ & _ & _ & _ & ->).
  apply generate_ok_effects in H2 as (made2 & _ & _ & _ & _ & ->).
  rewrite !writes_app, !writes_mkdirs, !writes_events_of. simpl.
  split; [|split; [apply plan_of_paths|split;
    [apply plan_of_paths|split; [apply pairs_sizes|]]]].
  - unfold plan_of. apply plan_contents. by rewrite !pairs_sizes, Hlen.
  - intros k size label n Hk Hn. by apply plan_of_slice.
Qed.

(** *** How far the files follow the seed and the order of the sizes *)







End Runs.

(** *** numpy's generator at work *)

(** The first ten draws of the script's generator, and how often each
    value occurs among the 4096 draws that fill [A_64.bin]. *)
Lemma first_draws : stream 10 (PCG64.seed SEED) = [0; 7; 6; 4; 4; 8; 0; 6; 2; 0].
Proof. vm_compute. reflexivity. Qed.

Lemma first_file_histogram :
  histogram (stream 4096 (PCG64.seed SEED))
  = [383; 452; 393; 390; 442; 408; 382; 433; 384; 429]%nat.
Proof. vm_compute. reflexivity. Qed.

(** C2.  Every element of every array that [integers] returns for the
    script's call is a draw from [0, 9], and the elements are successive
    draws: each is taken from the generator as the draw before it left it.
    The k-th file of a run is the image of the draws that follow those of
    the k-1 files before it in the stream of the seeded generator, so every
    number decoded from a file that a run writes lies in [0, 9], whether
    the run ends well or not and whether the file is complete or was cut
    short; and so does every number decoded from the file of a
    (label, size) pair after a complete run.  With numpy's generator a draw
    is the high half of ten times the first 32 bit output that is kept, and
    each of the ten values is the image of as many kept outputs as any
    other (429496729 consecutive ones): the draws are as uniform as the 32
    bit outputs.  At the seed of the script the first ten draws are 0, 7,
    6, 4, 4, 8, 0, 6, 2, 0, and each of the ten values occurs between 382
    and 452 times among the 4096 draws of the first file. *)
Theorem values_in_range native labels sizes dir seed w r w' :
  generate (G := PCG64.state) native labels sizes dir seed w = (r, w') ->
  (forall avail size (g g' : PCG64.state) matrix,
     integers avail 0 10 (size, size) g = Ok (matrix, g') ->
     data matrix = stream (count size) g /\
     g' = advance (count size) g /\
     Forall (fun x => 0 <= x <= 9) (data matrix)) /\
  (forall n (g : PCG64.state),
     stream (S n) g = (bounded_uint32 9 g).1 :: stream n (bounded_uint32 9 g).2 /\
     advance (S n) g = advance n (bounded_uint32 9 g).2) /\
  (forall path content,
     EvWrite path content ∈ effects w w' \/ EvShortWrite path content ∈ effects w w' ->
     Forall (fun x => 0 <= x <= 9) (Int32.decode native content)) /\
  (forall k path content,
     writes (effects w w') !! k = Some (path, content) ->
     exists size label,
       pairs labels sizes !! k = Some (size, label) /\
       path = filepath_of dir label size /\
       content = Int32.encode native
                   (stream (count size)
                      (advance (draws_of (take k (pairs labels sizes))) (PCG64.seed seed))) /\
       Int32.decode native content =
         stream (count size)
           (advance (draws_of (take k (pairs labels sizes))) (PCG64.seed seed))) /\
  (r = Ok tt ->
   forall size label, size ∈ sizes -> label ∈ labels ->
     exists content,
       read_file w' (filepath_of dir label size) = Some content /\
       Forall (fun x => 0 <= x <= 9) (Int32.decode native content)) /\
  (forall (g : PCG64.state) x g',
     PCG64.first_kept PCG64.MAX_REJECTIONS 9
       (PCG64.next_uint32 g).1 (PCG64.next_uint32 g).2 = Some (x, g') ->
     bounded_uint32 9 g = (PCG64.value_of 9 x, g')) /\
  (forall x v,
     PCG64.kept 9 x = true /\ PCG64.value_of 9 x = v <->
     (v * 2 ^ 32 + 15) / 10 <= x < (v * 2 ^ 32 + 15) / 10 + 429496729) /\
  stream 10 (PCG64.seed SEED) = [0; 7; 6; 4; 4; 8; 0; 6; 2; 0] /\
  histogram (stream 4096 (PCG64.seed SEED))
    = [383; 452; 393; 390; 442; 408; 382; 433; 384; 429]%nat.
Proof.
  intros Hrun.
  destruct (run_values native labels sizes dir seed w r w' Hrun) as (Hev & Hk & Hfiles).
  split; [|split; [|split; [|split; [|split; [|split; [|split; [|split]]]]]]].
  - intros avail size g g' matrix. rewrite integers_script.
    destruct (empty_error avail (size, size)); [done|]. intros [= <- <-].
    split; [done|]. split; [done|]. apply stream_range.
  - intros n g. apply stream_step.
  - exact Hev.
  - exact Hk.
  - exact Hfiles.
  - intros g x g'. apply PCG64Facts.bounded_first_kept. lia.
  - exact PCG64Facts.kept_balanced.
  - exact first_draws.
  - exact first_file_histogram.
Qed.

(** *** Seeds that the generator cannot tell apart, and seeds that it can *)






(** *** Runs in which an error does not show *)




(** *** The theorems at work *)

Lemma fresh_clear q :
  faults fresh !! q = None /\ (path_exists fresh q = true -> path_isdir fresh q = true).
Proof.
  split; [done|]. unfold path_exists, path_isdir, stat, fresh. cbn [machine nodes].
  rewrite lookup_empty. by destruct (is_root q).
Qed.


(** C2 on the run that is cut short in the file [A_32.bin]: the six bytes
    that reached the file decode to one number, in range. *)
Lemma values_in_range_witness :
  Forall (fun x => 0 <= x <= 9) (Int32.decode Int32.LittleEndian [6; 0; 0; 0; 4; 0]).
Proof.
  pose proof (values_in_range Int32.LittleEndian LABELS [1; 32]
                "matrices" 42 no_space
                (generate Int32.LittleEndian LABELS [1; 32] "matrices" 42 no_space).1
                (generate Int32.LittleEndian LABELS [1; 32] "matrices" 42 no_space).2
                (surjective_pairing _)) as (_ & _ & Hfiles & _).
  apply (Hfiles "matrices/A_32.bin"). right.
  apply list_elem_of_In. vm_compute. tauto.
Defined.


(** C4 on the run at sizes 1 and 2 in a new directory. *)
Lemma generation_order_witness :
  stdout (generate (G := PCG64.state) Int32.LittleEndian LABELS [1; 2] "matrices" 42 fresh).2
  = ["Saved matrices/A_1.bin"; "Saved matrices/B_1.bin";
     "Saved matrices/A_2.bin"; "Saved matrices/B_2.bin"].
Proof.
  destruct (generation_order (G := PCG64.state) Int32.LittleEndian LABELS [1; 2]
              "matrices" 42 fresh
              (generate Int32.LittleEndian LABELS [1; 2] "matrices" 42 fresh).1
              (generate Int32.LittleEndian LABELS [1; 2] "matrices" 42 fresh).2
              (surjective_pairing _)) as (Hout & _).
  rewrite Hout. vm_compute. reflexivity.
Defined.

(** C5 on the run of the script in a new directory. *)
Lemma main_writes_ten_files_witness :
  exists w',
    main (G := PCG64.state) Int32.LittleEndian fresh = (Ok tt, w') /\
    (writes (effects fresh w')).*1 = main_paths.
Proof.
  exists (commit (plan_of (G := PCG64.state) Int32.LittleEndian LABELS MATRIX_SIZES
                    OUTPUT_DIR SEED) (mkdirs_of [["matrices"]] fresh)).
  split.
  - exact (main_on_fresh (G := PCG64.state) Int32.LittleEndian).
  - exact (proj1 (main_writes_ten_files (G := PCG64.state) Int32.LittleEndian fresh _
                    (main_on_fresh (G := PCG64.state) Int32.LittleEndian))).
Defined.


(** C7 on a run that finds nothing of its output directory [out/deep/m]
    and on the leftovers of another program: the three directories are
    made, parents first; [makedirs] leaves the directory that is there as it
    is, and the file that was there holds the generated bytes afterwards. *)
Lemma directory_then_overwrite_witness :
  makedirs "out/deep/m" true (set_pending [] fresh)
    = (Ok tt, mkdirs_of [["out"]; ["out"; "deep"]; ["out"; "deep"; "m"]]
                (set_pending [] fresh)) /\
  path_isdir
    (generate (G := PCG64.state) Int32.LittleEndian LABELS [1; 2] "out/deep/m" 42 fresh).2
    ["out"; "deep"] = true /\
  makedirs "matrices" true stale = (Ok tt, stale) /\
  read_file stale (filepath_of "matrices" "A" 2) = Some [1; 2; 3] /\
  exists content,
    last_write (plan_of (G := PCG64.state) Int32.LittleEndian LABELS [1; 2] "matrices" 42)
      (key_of (filepath_of "matrices" "A" 2)) = Some content /\
    read_file (generate (G := PCG64.state) Int32.LittleEndian LABELS [1; 2] "matrices" 42
                 stale).2 (filepath_of "matrices" "A" 2) = Some content.
Proof.
  destruct (directory_then_overwrite (G := PCG64.state) Int32.LittleEndian LABELS [1; 2]
              "out/deep/m" 42 fresh
              (generate Int32.LittleEndian LABELS [1; 2] "out/deep/m" 42 fresh).1
              (generate Int32.LittleEndian LABELS [1; 2] "out/deep/m" 42 fresh).2
              (surjective_pairing _)) as (_ & Hmake & _).
  destruct (directory_then_overwrite (G := PCG64.state) Int32.LittleEndian LABELS [1; 2]
              "matrices" 42 stale
              (generate Int32.LittleEndian LABELS [1; 2] "matrices" 42 stale).1
              (generate Int32.LittleEndian LABELS [1; 2] "matrices" 42 stale).2
              (surjective_pairing _)) as (_ & _ & Hnoop & _ & Hfiles).
  destruct Hmake as (Hm & _ & _ & Hdirs);
    [apply fresh_well_formed|discriminate|intros q _; apply fresh_clear|].
  split; [exact Hm|]. split; [|split; [|split]].
  - apply Hdirs. by exists ["m"].
  - apply Hnoop; [apply stale_well_formed|discriminate|reflexivity].
  - reflexivity.
  - destruct (Hfiles ltac:(vm_compute; reflexivity) 2 "A") as (c & Hlw & _ & Hr).
    + apply list_elem_of_In. simpl. tauto.
    + apply list_elem_of_In. simpl. tauto.
    + exists c. split; [exact Hlw|]. apply Hr. reflexivity.
Defined.

(** C8 on two runs at sizes 1 and 2, the first in a new directory. *)
Lemma second_run_changes_nothing_witness :
  exists w2,
    generate (G := PCG64.state) Int32.LittleEndian LABELS [1; 2] "matrices" 42
      (generate (G := PCG64.state) Int32.LittleEndian LABELS [1; 2] "matrices" 42 fresh).2
    = (Ok tt, w2) /\
    nodes w2
    = nodes (generate (G := PCG64.state) Int32.LittleEndian LABELS [1; 2] "matrices" 42
               fresh).2.
Proof.
  destruct (second_run_changes_nothing (G := PCG64.state) Int32.LittleEndian LABELS [1; 2]
              "matrices" 42 fresh
              (generate Int32.LittleEndian LABELS [1; 2] "matrices" 42 fresh).2)
    as (w2 & Hrun & Hnodes & _).
  - apply fresh_well_formed.
  - vm_compute. reflexivity.
  - exists w2. split; [exact Hrun|exact Hnodes].
Defined.

(** C10 on two runs at sizes 1 and 2, one with the labels A and B and one
    with the labels X and Y. *)
Lemma labels_only_name_files_witness :
  (writes (effects fresh
     (generate (G := PCG64.state) Int32.LittleEndian ["A"; "B"] [1; 2] "matrices" 42
        fresh).2)).*2
  = (writes (effects stale
       (generate (G := PCG64.state) Int32.LittleEndian ["X"; "Y"] [1; 2] "matrices" 42
          stale).2)).*2.
Proof.
  apply (labels_only_name_files (G := PCG64.state) Int32.LittleEndian
           ["A"; "B"] ["X"; "Y"] [1; 2] "matrices" 42 fresh
           (generate Int32.LittleEndian ["A"; "B"] [1; 2] "matrices" 42 fresh).2
           stale
           (generate Int32.LittleEndian ["X"; "Y"] [1; 2] "matrices" 42 stale).2).
  - reflexivity.
  - vm_compute. reflexivity.
  - vm_compute. reflexivity.
Defined.


(** The script at the one size 2 in a new directory: two files of sixteen
    bytes, the first four and the next four draws of the seed 42. *)
Example scenario_size_2 :
  read_file
    (generate (G := PCG64.state) Int32.LittleEndian LABELS [2] "matrices" 42 fresh).2
    "matrices/A_2.bin" = Some (Int32.encode Int32.LittleEndian [0; 7; 6; 4]) /\
  read_file
    (generate (G := PCG64.state) Int32.LittleEndian LABELS [2] "matrices" 42 fresh).2
    "matrices/B_2.bin" = Some (Int32.encode Int32.LittleEndian [4; 8; 0; 6]) /\
  stdout
    (generate (G := PCG64.state) Int32.LittleEndian LABELS [2] "matrices" 42 fresh).2
    = ["Saved matrices/A_2.bin"; "Saved matrices/B_2.bin"].
Proof. repeat split; vm_compute; reflexivity. Qed.

End Properties.
